(** * Delivery route optimisation: A* search on an occupancy grid and the
      priority-bucketed goal planner (Final2.cpp)

    The development embeds [heuristic], [isValid], [aStar] and the planning
    part of [main] and proves the properties of the search engine and of the
    planner.

    Conventions of the embedding.
    - A C++ [int] is a [Z] in the range of a 32-bit signed integer; the
      arithmetic of the program is written with its two's-complement
      wrap-around ([wrap]).
    - A [vector] is a [list]; [v[i]] outside the vector is undefined
      behaviour in C++ and is the outcome [Fault] here, as is a vector
      constructor that throws.
    - [Node*] back references are never mutated after construction, so a
      node carries its parent as a value ([node_parent]).
    - [std::priority_queue] is library code; it is an interface
      ([PriorityQueue]) whose laws say what the C++ standard guarantees:
      [top]/[pop] remove an element that no other element precedes in the
      comparator's order.  Which of several elements of equal total cost
      comes first is left to the instance. *)

From Equations Require Import Equations.
From stdpp Require Import base list.
From Stdlib Require Import ZArith Lia.

Local Open Scope Z_scope.

Set Warnings "-register-all".

(** ** Outcomes: a value, or no defined result *)

Inductive outcome (A : Type) : Type :=
| Ok (a : A)
| Fault.
Arguments Ok {A} a.
Arguments Fault {A}.

#[global] Instance outcome_ret : MRet outcome := λ A a, Ok a.

#[global] Instance outcome_bind : MBind outcome := λ A B k m,
  match m with
  | Ok a => k a
  | Fault => Fault
  end.

(** ** Machine integers *)

Definition int_min : Z := - 2 ^ 31.
Definition int_max : Z := 2 ^ 31 - 1.

Definition wrap (z : Z) : Z := (z + 2 ^ 31) mod 2 ^ 32 - 2 ^ 31.

Definition int_add (a b : Z) : Z := wrap (a + b).
Definition int_sub (a b : Z) : Z := wrap (a - b).
Definition int_abs (a : Z) : Z := wrap (Z.abs a).

(** ** Vectors *)

(** [v[i]] with an [int] index: a negative index converts to a huge
    [size_t], so it is out of range like an index beyond the end. *)
Definition vec_at {A} (v : list A) (i : Z) : outcome A :=
  if decide (0 ≤ i) then
    match v !! Z.to_nat i with
    | Some a => Ok a
    | None => Fault
    end
  else Fault.

(** [m[x][y]] *)
Definition at2 {A} (m : list (list A)) (x y : Z) : outcome A :=
  row ← vec_at m x; vec_at row y.

(** [m[x][y] = v] *)
Definition set2 {A} (m : list (list A)) (x y : Z) (v : A)
  : outcome (list (list A)) :=
  row ← vec_at m x;
  _ ← vec_at row y;
  Ok (<[Z.to_nat x := <[Z.to_nat y := v]> row]> m).

(** ** Search nodes *)

Abbreviation cell := (Z * Z)%type.

Inductive Node : Type := mkNode {
  node_x : Z;
  node_y : Z;
  node_g : Z;
  node_h : Z;
  node_parent : option Node
}.

(** [Node::f] *)
Definition node_f (n : Node) : Z := int_add (node_g n) (node_h n).

Definition node_cell (n : Node) : cell := (node_x n, node_y n).

(** ** Heuristic and bounds test *)

Definition heuristic (x y destX destY : Z) : Z :=
  int_add (int_abs (int_sub destX x)) (int_abs (int_sub destY y)).

Definition isValid (x y rows cols : Z) : bool :=
  (0 <=? x) && (0 <=? y) && (x <? rows) && (y <? cols).

(** The walk over [parent] links of lines 91-94: the cells from the goal
    node back to the node without parent. *)
Fixpoint back_links (n : Node) : list cell :=
  (node_x n, node_y n) ::
  match node_parent n with
  | Some p => back_links p
  | None => []
  end.

(** ** The frontier *)

(** [std::priority_queue<Node*, vector<Node*>, cmp>] with
    [cmp a b = a->f() > b->f()].  [pq_pop] is [top] followed by [pop] and
    is [None] on an empty queue. *)
Class PriorityQueue := {
  pq : Type;
  pq_empty : pq;
  pq_push : Node → pq → pq;
  pq_pop : pq → option (Node * pq);
  pq_items : pq → list Node;
  pq_items_empty : pq_items pq_empty = [];
  pq_items_push n q : pq_items (pq_push n q) ≡ₚ n :: pq_items q;
  pq_pop_none q : pq_pop q = None → pq_items q = [];
  pq_pop_some q n q' :
    pq_pop q = Some (n, q') →
    pq_items q ≡ₚ n :: pq_items q' ∧
    Forall (λ m, node_f n ≤ node_f m) (pq_items q)
}.

(** ** The search engine *)

(** The grid: [vector<vector<int>>], 1 is an obstacle. *)
Abbreviation Grid := (list (list Z)).

(** The four movements of lines 102-103: [dx[i]], [dy[i]]. *)
Definition moves : list (Z * Z) := [(1, 0); (-1, 0); (0, 1); (0, -1)].

Section Search.
Context `{PQ : PriorityQueue}.

Record search_state : Type := mkState {
  visited : list (list bool);
  frontier : pq
}.

(** What one iteration of the while loop does to the search. *)
Inductive step_result : Type :=
| Finished (r : outcome (list cell))
| Continue (st : search_state).

Variable grid : Grid.
Variables rows cols destX destY : Z.

(** Lines 106-113: the neighbour in direction [d] of [current], as the new
    node if it passes the test of line 110 (evaluated left to right with
    short circuit), [None] if it does not. *)
Definition neighbour_node (vis : list (list bool)) (current : Node)
    (d : Z * Z) : outcome (option Node) :=
  let newX := int_add (node_x current) d.1 in
  let newY := int_add (node_y current) d.2 in
  if isValid newX newY rows cols then
    seen ← at2 vis newX newY;
    if (seen : bool) then Ok None
    else
      c ← at2 grid newX newY;
      if c =? 1 then Ok None
      else
        let newG := int_add (node_g current) 1 in
        let newH := heuristic newX newY destX destY in
        Ok (Some (mkNode newX newY newG newH (Some current)))
  else Ok None.

(** The for loop of lines 105-116. *)
Fixpoint push_neighbours (vis : list (list bool)) (current : Node)
    (ds : list (Z * Z)) (q : pq) : outcome pq :=
  match ds with
  | [] => Ok q
  | d :: ds' =>
      o ← neighbour_node vis current d;
      push_neighbours vis current ds'
        (match o with Some newNode => pq_push newNode q | None => q end)
  end.

(** One iteration of the while loop of lines 84-117. *)
Definition step (st : search_state) : step_result :=
  match pq_pop (frontier st) with
  | None => Finished (Ok [])
  | Some (current, q) =>
      if (node_x current =? destX) && (node_y current =? destY) then
        Finished (Ok (reverse (back_links current)))
      else
        match set2 (visited st) (node_x current) (node_y current) true with
        | Fault => Finished Fault
        | Ok vis =>
            match push_neighbours vis current moves q with
            | Fault => Finished Fault
            | Ok q' => Continue (mkState vis q')
            end
        end
  end.

(** *** Termination measure *)

Definition visited_at (vis : list (list bool)) (x y : Z) : bool :=
  match at2 vis x y with
  | Ok b => b
  | Fault => false
  end.

(** Number of cells not yet closed. *)
Definition open_cells (vis : list (list bool)) : nat :=
  length (filter (λ b, b = false) (concat vis)).

(** Number of frontier nodes whose cell is already closed. *)
Definition stale_nodes (vis : list (list bool)) (ns : list Node) : nat :=
  length (filter (λ n, visited_at vis (node_x n) (node_y n) = true) ns).

Definition search_measure (st : search_state) : nat * nat :=
  (open_cells (visited st), stale_nodes (visited st) (pq_items (frontier st))).

(** An iteration closes a cell, or else it takes a node of a closed cell
    from the frontier and adds nodes of open cells only: the order is
    lexicographic. *)
Definition search_order : nat * nat → nat * nat → Prop :=
  Subterm.lexprod nat nat lt lt.

End Search.

(** ** Facts on vectors *)

Lemma vec_at_Ok {A} (v : list A) (i : Z) (a : A) :
  vec_at v i = Ok a ↔ 0 ≤ i ∧ v !! Z.to_nat i = Some a.
Proof.
  unfold vec_at. destruct (decide (0 ≤ i)) as [Hi|Hi].
  - destruct (v !! Z.to_nat i) eqn:E; split.
    + intros [= ->]. done.
    + intros [_ [= ->]]. done.
    + discriminate.
    + intros [_ [=]].
  - split; [discriminate | intros [? _]; lia].
Qed.

Lemma at2_Ok {A} (m : list (list A)) (x y : Z) (a : A) :
  at2 m x y = Ok a ↔
  ∃ row, 0 ≤ x ∧ m !! Z.to_nat x = Some row ∧
         0 ≤ y ∧ row !! Z.to_nat y = Some a.
Proof.
  unfold at2. split.
  - destruct (vec_at m x) as [row|] eqn:E; [|discriminate].
    cbn. intros H. apply vec_at_Ok in E as [? ?]. apply vec_at_Ok in H as [? ?].
    eauto 6.
  - intros (row & Hx & Hr & Hy & Ha).
    assert (vec_at m x = Ok row) as -> by (apply vec_at_Ok; auto).
    cbn. apply vec_at_Ok; auto.
Qed.

Lemma set2_Ok {A} (m : list (list A)) (x y : Z) (v : A) m' :
  set2 m x y v = Ok m' ↔
  ∃ row a, 0 ≤ x ∧ m !! Z.to_nat x = Some row ∧
           0 ≤ y ∧ row !! Z.to_nat y = Some a ∧
           m' = <[Z.to_nat x := <[Z.to_nat y := v]> row]> m.
Proof.
  unfold set2. split.
  - destruct (vec_at m x) as [row|] eqn:E; [|discriminate]. cbn.
    destruct (vec_at row y) as [a|] eqn:E'; [|discriminate]. cbn.
    intros [= <-]. apply vec_at_Ok in E as [? ?]. apply vec_at_Ok in E' as [? ?].
    eauto 8.
  - intros (row & a & Hx & Hr & Hy & Ha & ->).
    assert (vec_at m x = Ok row) as -> by (apply vec_at_Ok; auto). cbn.
    assert (vec_at row y = Ok a) as -> by (apply vec_at_Ok; auto). done.
Qed.

Lemma set2_defined {A} (m : list (list A)) (x y : Z) (v a : A) :
  at2 m x y = Ok a → ∃ m', set2 m x y v = Ok m'.
Proof.
  intros (row & ? & ? & ? & ?)%at2_Ok. eexists. apply set2_Ok. eauto 8.
Qed.

Lemma at2_set2 {A} (m : list (list A)) (x y : Z) (v : A) m' (x' y' : Z) :
  set2 m x y v = Ok m' →
  at2 m' x' y' = if decide (x' = x ∧ y' = y) then Ok v else at2 m x' y'.
Proof.
  intros (row & a & Hx & Hr & Hy & Ha & ->)%set2_Ok.
  assert (Hlx : (Z.to_nat x < length m)%nat) by (eapply lookup_lt_Some; eauto).
  assert (Hly : (Z.to_nat y < length row)%nat) by (eapply lookup_lt_Some; eauto).
  destruct (decide (x' = x ∧ y' = y)) as [[-> ->]|Hne].
  - apply at2_Ok. exists (<[Z.to_nat y := v]> row).
    rewrite list_lookup_insert_eq by done.
    rewrite list_lookup_insert_eq by done. auto.
  - unfold at2, vec_at.
    destruct (decide (0 ≤ x')) as [Hx'|]; [|done].
    destruct (decide (x' = x)) as [->|Hxx].
    + rewrite list_lookup_insert_eq by done. rewrite Hr. cbn.
      destruct (decide (0 ≤ y')); [|done].
      rewrite list_lookup_insert_ne; [done|]. intros E. apply Hne. split; [done|lia].
    + rewrite list_lookup_insert_ne; [done|]. lia.
Qed.

Lemma count_false_insert (row : list bool) (j : nat) (b : bool) :
  row !! j = Some b →
  (length (filter (λ c, c = false) (<[j := true]> row)) +
     (if b then 0 else 1) =
   length (filter (λ c, c = false) row))%nat.
Proof.
  intros H.
  assert (Hj : (j < length row)%nat) by (eapply lookup_lt_Some; eauto).
  rewrite insert_take_drop by done.
  rewrite <- (take_drop_middle row j b) at 3 by done.
  rewrite !filter_app, !length_app, !filter_cons.
  destruct b; repeat case_decide; simplify_eq; cbn; lia.
Qed.

(** ** Termination of the search loop *)

Section Termination.
Context `{PQ : PriorityQueue}.
Variable grid : Grid.
Variables rows cols destX destY : Z.

Lemma open_cells_set2 (vis vis' : list (list bool)) (x y : Z) :
  set2 vis x y true = Ok vis' →
  (at2 vis x y = Ok true ∧ vis' = vis) ∨
  (at2 vis x y = Ok false ∧ (open_cells vis' < open_cells vis)%nat).
Proof.
  intros (row & b & Hx & Hr & Hy & Hb & ->)%set2_Ok.
  assert (Hat : at2 vis x y = Ok b) by (apply at2_Ok; eauto 6).
  destruct b.
  - left. split; [done|].
    rewrite (list_insert_id row) by done. by rewrite list_insert_id.
  - right. split; [done|]. unfold open_cells.
    assert (Hlx : (Z.to_nat x < length vis)%nat) by (eapply lookup_lt_Some; eauto).
    rewrite insert_take_drop by done.
    rewrite <- (take_drop_middle vis (Z.to_nat x) row) at 3 by done.
    rewrite !concat_app, !concat_cons, !filter_app, !length_app.
    pose proof (count_false_insert row (Z.to_nat y) false Hb) as Hc.
    cbn in Hc. lia.
Qed.

Lemma visited_at_set2 (vis vis' : list (list bool)) (x y x' y' : Z) :
  set2 vis x y true = Ok vis' →
  visited_at vis' x' y' =
  if decide (x' = x ∧ y' = y) then true else visited_at vis x' y'.
Proof.
  intros H. unfold visited_at. rewrite (at2_set2 _ _ _ _ _ x' y' H).
  by case_decide.
Qed.

Lemma neighbour_node_Some vis current d n :
  neighbour_node grid rows cols destX destY vis current d = Ok (Some n) →
  let newX := int_add (node_x current) d.1 in
  let newY := int_add (node_y current) d.2 in
  n = mkNode newX newY (int_add (node_g current) 1)
        (heuristic newX newY destX destY) (Some current) ∧
  isValid newX newY rows cols = true ∧
  at2 vis newX newY = Ok false ∧
  ∃ c, at2 grid newX newY = Ok c ∧ c ≠ 1.
Proof.
  unfold neighbour_node. cbn zeta.
  destruct (isValid _ _ rows cols) eqn:Hv; [|discriminate].
  destruct (at2 vis _ _) as [[]|] eqn:Hs; cbn; try discriminate.
  destruct (at2 grid _ _) as [c|] eqn:Hc; cbn; try discriminate.
  destruct (Z.eqb_spec c 1); [discriminate|].
  intros [= <-]. eauto 8.
Qed.

(** The nodes pushed by the for loop, in the order of [moves]. *)
Definition pushed (os : list (option Node)) : list Node := omap id os.

Lemma push_neighbours_Ok vis current ds q q' :
  push_neighbours grid rows cols destX destY vis current ds q = Ok q' →
  ∃ os,
    Forall2 (λ d o, neighbour_node grid rows cols destX destY vis current d = Ok o)
      ds os ∧
    pq_items q' ≡ₚ pushed os ++ pq_items q.
Proof.
  revert q. induction ds as [|d ds IH]; intros q; cbn.
  - intros [= ->]. exists []. split; [constructor|done].
  - destruct (neighbour_node _ _ _ _ _ vis current d) as [o|] eqn:Hd;
      cbn; [|discriminate].
    intros (os & HF & Hp)%IH. exists (o :: os). split; [by constructor|].
    rewrite Hp. destruct o as [n|]; cbn; [|done].
    rewrite pq_items_push. unfold pushed.
    by rewrite Permutation_middle.
Qed.

Lemma pushed_fresh vis current ds os :
  Forall2 (λ d o, neighbour_node grid rows cols destX destY vis current d = Ok o)
    ds os →
  Forall (λ n, visited_at vis (node_x n) (node_y n) = false) (pushed os).
Proof.
  induction 1 as [|d o ds os Hd _ IH]; cbn; [constructor|].
  destruct o as [n|]; cbn; [|done]. constructor; [|done].
  apply neighbour_node_Some in Hd as (-> & _ & Hat & _). cbn.
  unfold visited_at. by rewrite Hat.
Qed.

Lemma stale_nodes_fresh vis ns :
  Forall (λ n, visited_at vis (node_x n) (node_y n) = false) ns →
  stale_nodes vis ns = 0%nat.
Proof.
  induction 1 as [|n ns Hn _ IH]; [done|].
  unfold stale_nodes in *. rewrite filter_cons.
  case_decide; [congruence|done].
Qed.

Lemma stale_nodes_cons vis n ns :
  stale_nodes vis (n :: ns) =
  ((if visited_at vis (node_x n) (node_y n) then 1 else 0) +
   stale_nodes vis ns)%nat.
Proof.
  unfold stale_nodes. rewrite filter_cons.
  destruct (visited_at vis (node_x n) (node_y n)); by case_decide.
Qed.

Lemma stale_nodes_app vis ns ms :
  stale_nodes vis (ns ++ ms) = (stale_nodes vis ns + stale_nodes vis ms)%nat.
Proof. unfold stale_nodes. by rewrite filter_app, length_app. Qed.

Lemma stale_nodes_perm vis ns ms :
  ns ≡ₚ ms → stale_nodes vis ns = stale_nodes vis ms.
Proof. unfold stale_nodes. by intros ->. Qed.

Lemma step_Continue st st' :
  step grid rows cols destX destY st = Continue st' →
  ∃ current q,
    pq_pop (frontier st) = Some (current, q) ∧
    (node_x current =? destX) && (node_y current =? destY) = false ∧
    set2 (visited st) (node_x current) (node_y current) true = Ok (visited st') ∧
    push_neighbours grid rows cols destX destY (visited st') current moves q
      = Ok (frontier st').
Proof.
  unfold step. destruct (pq_pop (frontier st)) as [[current q]|]; [|discriminate].
  destruct (_ && _) eqn:Hd; [discriminate|].
  destruct (set2 _ _ _ _) as [vis|] eqn:Hs; [|discriminate].
  destruct (push_neighbours _ _ _ _ _ _ _ _ _) as [q'|] eqn:Hp; [|discriminate].
  intros [= <-]. exists current, q. cbn. done.
Qed.

Lemma step_decreases st st' :
  step grid rows cols destX destY st = Continue st' →
  search_order (search_measure st') (search_measure st).
Proof.
  intros (current & q & Hpop & _ & Hset & Hpush)%step_Continue.
  apply pq_pop_some in Hpop as [Hperm _].
  apply push_neighbours_Ok in Hpush as (os & Hos & Hq').
  unfold search_order, search_measure.
  destruct (open_cells_set2 _ _ _ _ Hset) as [[Hat Heq]|[_ Hlt]].
  - rewrite Heq in *. apply right_lex.
    rewrite (stale_nodes_perm _ _ _ Hq'), (stale_nodes_perm _ _ _ Hperm).
    rewrite stale_nodes_app, (stale_nodes_fresh _ (pushed os))
      by (eapply pushed_fresh; eauto).
    rewrite stale_nodes_cons.
    assert (visited_at (visited st) (node_x current) (node_y current) = true)
      as -> by (unfold visited_at; by rewrite Hat).
    cbn. lia.
  - by apply left_lex.
Qed.

(** The accessibility proof is guarded by [Acc_intro_generator], so that
    evaluating [search_loop] on a concrete grid never inspects the proof of
    [step_decreases]. *)
Definition search_order_acc : well_founded search_order :=
  Acc_intro_generator 64
    (Subterm.wf_lexprod nat nat lt lt Subterm.lt_wf Subterm.lt_wf).
#[local] Opaque search_order_acc.

#[local] Instance search_order_wf : WellFounded search_order :=
  search_order_acc.

(** The while loop of lines 84-117, and line 119 when the frontier is
    empty. *)
Equations? search_loop (st : search_state) : outcome (list cell)
  by wf (search_measure st) search_order :=
search_loop st with Logic.inspect (step grid rows cols destX destY st) := {
  | exist _ (Finished r) _ => r;
  | exist _ (Continue st') Hstep => search_loop st' }.
Proof. exact (step_decreases _ _ Hstep). Qed.

Lemma search_loop_step (st : search_state) :
  search_loop st =
  match step grid rows cols destX destY st with
  | Finished r => r
  | Continue st' => search_loop st'
  end.
Proof.
  apply (search_loop_elim
           (λ st r, r = match step grid rows cols destX destY st with
                        | Finished r => r
                        | Continue st' =>
                            search_loop st'
                        end)).
  - intros st0 r e _. by rewrite e.
  - intros st0 st' Hs _ _. by rewrite Hs.
Qed.

End Termination.

(** [aStar], lines 71-120.  [rows] and [cols] are the sizes converted to
    [int]; the two vector constructors of lines 74-75 throw on a negative
    size.  The vector [nodes] of line 75 is never read or written. *)
Definition aStar `{PriorityQueue} (grid : Grid) (startX startY destX destY : Z)
  : outcome (list cell) :=
  let rows := wrap (Z.of_nat (length grid)) in
  row0 ← vec_at grid 0;
  let cols := wrap (Z.of_nat (length row0)) in
  if (rows <? 0) || (cols <? 0) then Fault
  else
    let visited := replicate (Z.to_nat rows) (replicate (Z.to_nat cols) false) in
    let start :=
      mkNode startX startY 0 (heuristic startX startY destX destY) None in
    search_loop grid rows cols destX destY
      (mkState visited (pq_push start pq_empty)).

(** ** Frontier instances *)

(** The frontier as the list of its elements, newest first; [top]/[pop]
    search the minimum of [f].  [extract_min strict] returns, among the
    elements of least [f], the oldest one when [strict] is [true] and the
    newest one when it is [false]: two instances of [PriorityQueue] that
    differ in the order of ties only. *)
Fixpoint extract_min (strict : bool) (l : list Node) : option (Node * list Node) :=
  match l with
  | [] => None
  | n :: l' =>
      match extract_min strict l' with
      | None => Some (n, [])
      | Some (m, r) =>
          if (if strict then node_f n <? node_f m else node_f n <=? node_f m)
          then Some (n, l')
          else Some (m, n :: r)
      end
  end.

Lemma extract_min_None strict l : extract_min strict l = None → l = [].
Proof.
  destruct l as [|n l]; [done|]. cbn.
  destruct (extract_min strict l) as [[m r]|]; [|done].
  by destruct (if strict then _ else _).
Qed.

Lemma extract_min_Some strict l n r :
  extract_min strict l = Some (n, r) →
  l ≡ₚ n :: r ∧ Forall (λ m, node_f n ≤ node_f m) l.
Proof.
  revert n r. induction l as [|a l IH]; intros n r; cbn; [done|].
  destruct (extract_min strict l) as [[m r']|] eqn:E.
  - destruct (IH _ _ eq_refl) as [Hp HF].
    assert (Hm : node_f m ≤ node_f m) by lia.
    destruct (if strict then _ else _) eqn:Hc; intros [= <- <-].
    + split; [done|]. constructor; [lia|].
      eapply Forall_impl; [exact HF|]. cbn. intros x Hx.
      destruct strict; lia.
    + split; [by rewrite Hp; apply Permutation_swap|].
      constructor; [destruct strict; lia|done].
  - apply extract_min_None in E as ->. intros [= <- <-].
    split; [done|]. constructor; [lia|constructor].
Qed.

Definition list_pq (strict : bool) : PriorityQueue := {|
  pq := list Node;
  pq_empty := [];
  pq_push n q := n :: q;
  pq_pop q := extract_min strict q;
  pq_items q := q;
  pq_items_empty := eq_refl;
  pq_items_push n q := reflexivity (n :: q);
  pq_pop_none := extract_min_None strict;
  pq_pop_some := extract_min_Some strict
|}.

Definition fifo_pq : PriorityQueue := list_pq true.
Definition lifo_pq : PriorityQueue := list_pq false.

(** ** The goal planner: [main], lines 131-164

    The two reads of lines 128-129 are the parameters: the grid with the
    start cell found in it, and the list of destinations with their
    priorities.  What [main] prints is returned: the listing of lines
    137-142 and, for every search of line 151, a [Leg]. *)

Abbreviation Destination := (Z * Z * Z)%type.

(** Lines 133-135: [buckets[priority].push_back(destination)]. *)
Fixpoint fill_buckets (ds : list Destination) (buckets : list (list cell))
  : outcome (list (list cell)) :=
  match ds with
  | [] => Ok buckets
  | (destination, priority) :: ds' =>
      b ← vec_at buckets priority;
      fill_buckets ds' (<[Z.to_nat priority := b ++ [destination]]> buckets)
  end.

(** Line 132: [buckets(4)]. *)
Definition make_buckets (ds : list Destination) : outcome (list (list cell)) :=
  fill_buckets ds (replicate 4 []).

(** The priorities of the loops of lines 138 and 146. *)
Definition tiers : list Z := [1; 2; 3].

(** Lines 137-142: the lines printed under "Sorted Addresses". *)
Fixpoint sorted_addresses (ps : list Z) (buckets : list (list cell))
  : outcome (list Destination) :=
  match ps with
  | [] => Ok []
  | priority :: ps' =>
      b ← vec_at buckets priority;
      rest ← sorted_addresses ps' buckets;
      Ok (((λ d, (d, priority)) <$> b) ++ rest)
  end.

(** One search of the report: the origin it started from, the destination
    and its priority, and the path found; the empty path is the report
    "Cannot find a path". *)
Record Leg : Type := mkLeg {
  leg_origin : cell;
  leg_dest : cell;
  leg_priority : Z;
  leg_path : list cell
}.

Definition leg_found (l : Leg) : bool :=
  match leg_path l with
  | [] => false
  | _ => true
  end.

Section Planner.
Context `{PQ : PriorityQueue}.
Variable grid : Grid.

(** Lines 147-163 for one bucket: the legs and the start point after
    them. *)
Fixpoint run_bucket (priority : Z) (dests : list cell) (start : cell)
  : outcome (list Leg * cell) :=
  match dests with
  | [] => Ok ([], start)
  | destination :: rest =>
      let destX := destination.1 in
      let destY := destination.2 in
      path ← aStar grid start.1 start.2 destX destY;
      let start' :=
        match path with
        | [] => start
        | _ => (destX, destY)
        end in
      r ← run_bucket priority rest start';
      Ok (mkLeg start destination priority path :: r.1, r.2)
  end.

(** Lines 146-164. *)
Fixpoint run_tiers (ps : list Z) (buckets : list (list cell)) (start : cell)
  : outcome (list Leg * cell) :=
  match ps with
  | [] => Ok ([], start)
  | priority :: ps' =>
      b ← vec_at buckets priority;
      r1 ← run_bucket priority b start;
      r2 ← run_tiers ps' buckets r1.2;
      Ok (r1.1 ++ r2.1, r2.2)
  end.

(** [main] after the two reads: the sorted listing and the report. *)
Definition main (start : cell) (ds : list Destination)
  : outcome (list Destination * list Leg) :=
  buckets ← make_buckets ds;
  listing ← sorted_addresses tiers buckets;
  r ← run_tiers tiers buckets start;
  Ok (listing, r.1).

End Planner.

(** ** Grids, cells and routes *)

Definition grid_rows (grid : Grid) : Z := Z.of_nat (length grid).

Definition grid_cols (grid : Grid) : Z :=
  match grid with
  | [] => 0
  | row0 :: _ => Z.of_nat (length row0)
  end.

(** What lines 72-75 of [aStar] need: [map[0]] exists and the two sizes
    are values of [int]. *)
Definition sized_grid (grid : Grid) : bool :=
  match grid with
  | [] => false
  | _ => (grid_rows grid <=? int_max) && (grid_cols grid <=? int_max)
  end.

(** A grid as [readMapFromFile] builds it: at least one row, sizes that an
    [int] holds, and all rows of one length. *)
Definition wf_grid (grid : Grid) : bool :=
  sized_grid grid &&
  forallb (λ row, Z.of_nat (length row) =? grid_cols grid) grid.

(** The searches count steps and add the heuristic in [int]: the grid is
    small enough for that when [rows * cols + rows + cols] is an [int]. *)
Definition grid_fits (grid : Grid) : bool :=
  (grid_rows grid + 1) * (grid_cols grid + 1) <=? 2 ^ 31.

Definition in_grid (grid : Grid) (c : cell) : bool :=
  isValid c.1 c.2 (grid_rows grid) (grid_cols grid).

(** In bounds and not an obstacle. *)
Definition free (grid : Grid) (c : cell) : bool :=
  in_grid grid c &&
  match at2 grid c.1 c.2 with
  | Ok v => negb (v =? 1)
  | Fault => false
  end.

(** One step in exactly one axis. *)
Definition adjacent (a b : cell) : bool :=
  Z.abs (a.1 - b.1) + Z.abs (a.2 - b.2) =? 1.

(** [route grid origin c p]: [p] lists the cells of a walk from [origin] to
    [c] in which every step goes to an adjacent cell that is in bounds and
    not an obstacle.  The origin is where the agent stands; a route does
    not ask what the grid holds there. *)
Inductive route (grid : Grid) (origin : cell) : cell → list cell → Prop :=
| route_origin : route grid origin origin [origin]
| route_step c p d :
    route grid origin c p →
    adjacent c d = true →
    free grid d = true →
    route grid origin d (p ++ [d]).

(** The number of steps of a path. *)
Definition steps (p : list cell) : Z := Z.of_nat (length p) - 1.

(** Manhattan distance, in exact arithmetic. *)
Definition manhattan (a b : cell) : Z := Z.abs (b.1 - a.1) + Z.abs (b.2 - a.2).

(** ** Arithmetic that does not overflow *)

Lemma wrap_small (z : Z) : int_min ≤ z ≤ int_max → wrap z = z.
Proof.
  unfold wrap, int_min, int_max. intros H.
  rewrite Z.mod_small; lia.
Qed.

Lemma isValid_true (x y rows cols : Z) :
  isValid x y rows cols = true ↔ 0 ≤ x < rows ∧ 0 ≤ y < cols.
Proof. unfold isValid. rewrite !andb_true_iff. lia. Qed.

Lemma adjacent_moves (a b : cell) :
  adjacent a b = true ↔ ∃ d, d ∈ moves ∧ b = (a.1 + d.1, a.2 + d.2).
Proof.
  destruct a as [ax ay], b as [bx by']. unfold adjacent, moves. cbn. split.
  - intros H%Z.eqb_eq.
    assert ((bx = ax + 1 ∧ by' = ay) ∨ (bx = ax + -1 ∧ by' = ay) ∨
            (bx = ax ∧ by' = ay + 1) ∨ (bx = ax ∧ by' = ay + -1))
      as [[-> ->]|[[-> ->]|[[-> ->]|[-> ->]]]] by lia.
    + exists (1, 0). split; [repeat constructor|]. cbn. f_equal; lia.
    + exists (-1, 0). split; [repeat constructor|]. cbn. f_equal; lia.
    + exists (0, 1). split; [repeat constructor|]. cbn. f_equal; lia.
    + exists (0, -1). split; [repeat constructor|]. cbn. f_equal; lia.
  - intros ([dx dy] & Hd & [= -> ->]). apply Z.eqb_eq.
    repeat (apply elem_of_cons in Hd as [[= -> ->]|Hd]; [cbn; lia|]).
    by apply elem_of_nil in Hd.
Qed.

(** ** Well-formed grids *)

Lemma sized_grid_rows (grid : Grid) :
  sized_grid grid = true → 0 < grid_rows grid ≤ int_max.
Proof.
  unfold sized_grid. destruct grid as [|row0 g]; [done|].
  intros [H _]%andb_true_iff. apply Z.leb_le in H.
  unfold grid_rows in *. cbn [length] in *. lia.
Qed.

Lemma sized_grid_cols (grid : Grid) :
  sized_grid grid = true → 0 ≤ grid_cols grid ≤ int_max.
Proof.
  unfold sized_grid. destruct grid as [|row0 g]; [done|].
  intros [_ H]%andb_true_iff. apply Z.leb_le in H. unfold grid_cols in *. lia.
Qed.

Section GridFacts.
Variable grid : Grid.
Hypothesis Hwf : wf_grid grid = true.

Lemma wf_grid_sized : sized_grid grid = true.
Proof. unfold wf_grid in Hwf. by apply andb_true_iff in Hwf as [? _]. Qed.

Lemma wf_grid_rows : 0 < grid_rows grid ≤ int_max.
Proof. apply sized_grid_rows, wf_grid_sized. Qed.

Lemma wf_grid_cols : 0 ≤ grid_cols grid ≤ int_max.
Proof. apply sized_grid_cols, wf_grid_sized. Qed.

Lemma wf_grid_row (i : nat) (row : list Z) :
  grid !! i = Some row → Z.of_nat (length row) = grid_cols grid.
Proof.
  unfold wf_grid in Hwf. apply andb_true_iff in Hwf as [_ H].
  rewrite forallb_forall in H. intros Hi.
  apply list_elem_of_lookup_2, list_elem_of_In, H in Hi.
  by apply Z.eqb_eq in Hi.
Qed.

Lemma grid_at2_valid (x y v : Z) :
  at2 grid x y = Ok v → isValid x y (grid_rows grid) (grid_cols grid) = true.
Proof.
  intros (row & Hx & Hr & Hy & Hv)%at2_Ok. apply isValid_true.
  pose proof (wf_grid_row _ _ Hr) as <-.
  apply lookup_lt_Some in Hr, Hv. unfold grid_rows. lia.
Qed.

Lemma grid_at2_defined (x y : Z) :
  isValid x y (grid_rows grid) (grid_cols grid) = true → ∃ v, at2 grid x y = Ok v.
Proof.
  intros [[Hx Hx'] [Hy Hy']]%isValid_true. unfold grid_rows in Hx'.
  destruct (lookup_lt_is_Some_2 grid (Z.to_nat x)) as [row Hr]; [lia|].
  pose proof (wf_grid_row _ _ Hr) as Hlen.
  destruct (lookup_lt_is_Some_2 row (Z.to_nat y)) as [v Hv]; [lia|].
  exists v. apply at2_Ok. eauto 6.
Qed.

Lemma free_spec (c : cell) :
  free grid c = true ↔ ∃ v, at2 grid c.1 c.2 = Ok v ∧ v ≠ 1.
Proof.
  unfold free, in_grid. split.
  - intros [Hin H]%andb_true_iff.
    destruct (at2 grid c.1 c.2) as [v|]; [|done].
    exists v. split; [done|]. apply negb_true_iff, Z.eqb_neq in H. done.
  - intros (v & Hv & Hne). rewrite (grid_at2_valid _ _ _ Hv), Hv. cbn.
    by apply negb_true_iff, Z.eqb_neq.
Qed.

Lemma free_in_grid (c : cell) : free grid c = true → in_grid grid c = true.
Proof. unfold free. by intros [? _]%andb_true_iff. Qed.

End GridFacts.

(** ** One iteration of the search, on a well-formed grid *)

Section StepFacts.
Context `{PQ : PriorityQueue}.
Variable grid : Grid.
Hypothesis Hwf : wf_grid grid = true.
Variables origin target : cell.

(** The closed set has the extent of the grid. *)
Definition shaped (vis : list (list bool)) : Prop :=
  ∀ x y, (∃ b, at2 vis x y = Ok b) ↔
         isValid x y (grid_rows grid) (grid_cols grid) = true.

Definition seen (vis : list (list bool)) (c : cell) : bool :=
  visited_at vis c.1 c.2.

(** The node that line 113 builds for the neighbour [w] of [n]. *)
Definition child (n : Node) (w : cell) : Node :=
  mkNode w.1 w.2 (int_add (node_g n) 1)
    (heuristic w.1 w.2 target.1 target.2) (Some n).

(** The nodes that the for loop pushes when it expands [n]. *)
Definition successors (vis : list (list bool)) (n : Node) : list Node :=
  omap (λ d : Z * Z,
          let w := (node_x n + d.1, node_y n + d.2) in
          if free grid w && negb (seen vis w) then Some (child n w) else None)
       moves.

Lemma shaped_replicate :
  shaped (replicate (Z.to_nat (grid_rows grid))
            (replicate (Z.to_nat (grid_cols grid)) false)).
Proof.
  intros x y. rewrite isValid_true. split.
  - intros (b & (row & Hx & Hr & Hy & Hb)%at2_Ok).
    apply lookup_replicate in Hr as [-> Hr]. apply lookup_replicate in Hb as [_ Hb].
    lia.
  - intros [[Hx Hx'] [Hy Hy']]. exists false. apply at2_Ok.
    exists (replicate (Z.to_nat (grid_cols grid)) false).
    repeat split; try done; apply lookup_replicate_2; lia.
Qed.

Lemma seen_replicate (c : cell) (r k : nat) :
  seen (replicate r (replicate k false)) c = false.
Proof.
  unfold seen, visited_at.
  destruct (at2 _ c.1 c.2) as [b|] eqn:E; [|done].
  apply at2_Ok in E as (row & Hx & Hr & Hy & Hb).
  apply lookup_replicate in Hr as [-> Hr]. by apply lookup_replicate in Hb as [-> _].
Qed.

Lemma shaped_set2 (vis vis' : list (list bool)) (x y : Z) (b : bool) :
  shaped vis → set2 vis x y b = Ok vis' → shaped vis'.
Proof.
  intros Hs Hset x' y'. rewrite <- (Hs x' y'), (at2_set2 _ _ _ _ _ x' y' Hset).
  case_decide as Hd; [|done]. destruct Hd as [-> ->].
  apply set2_Ok in Hset as (row & a & ? & ? & ? & ? & _).
  split; intros _; [exists a; apply at2_Ok|]; eauto 6.
Qed.

Lemma seen_in_grid (vis : list (list bool)) (c : cell) :
  shaped vis → seen vis c = true → in_grid grid c = true.
Proof.
  unfold seen, visited_at, in_grid. intros Hs H. apply Hs.
  destruct (at2 vis c.1 c.2) as [b|]; [eauto|done].
Qed.

Lemma seen_set2 (vis vis' : list (list bool)) (x y : Z) (c : cell) :
  set2 vis x y true = Ok vis' →
  seen vis' c = if decide (c = (x, y)) then true else seen vis c.
Proof.
  intros H. unfold seen. rewrite (visited_at_set2 _ _ _ _ c.1 c.2 H).
  destruct c as [cx cy]. cbn.
  destruct (decide (cx = x ∧ cy = y)) as [[-> ->]|Hne].
  - by rewrite decide_True.
  - rewrite decide_False; [done|]. intros [= -> ->]. by apply Hne.
Qed.

Lemma neighbour_node_spec (vis : list (list bool)) (n : Node) (d : Z * Z) :
  shaped vis → in_grid grid (node_cell n) = true → d ∈ moves →
  let w := (node_x n + d.1, node_y n + d.2) in
  neighbour_node grid (grid_rows grid) (grid_cols grid) target.1 target.2 vis n d
  = Ok (if free grid w && negb (seen vis w) then Some (child n w) else None).
Proof.
  intros Hs [[Hx Hx'] [Hy Hy']]%isValid_true Hd. cbn in Hx, Hx', Hy, Hy'.
  pose proof (wf_grid_rows grid Hwf) as Hr. pose proof (wf_grid_cols grid Hwf) as Hc.
  assert (-1 ≤ d.1 ≤ 1 ∧ -1 ≤ d.2 ≤ 1) as [Hd1 Hd2].
  { unfold moves in Hd.
    repeat (apply elem_of_cons in Hd as [->|Hd]; [cbn; lia|]).
    by apply elem_of_nil in Hd. }
  cbn zeta. unfold neighbour_node. cbn zeta.
  unfold int_min, int_max in *.
  assert (int_add (node_x n) d.1 = node_x n + d.1) as ->
    by (apply wrap_small; unfold int_min, int_max; lia).
  assert (int_add (node_y n) d.2 = node_y n + d.2) as ->
    by (apply wrap_small; unfold int_min, int_max; lia).
  unfold free, in_grid, seen, visited_at. cbn [fst snd].
  destruct (isValid _ _ _ _) eqn:Hv; [|done]. cbn.
  destruct (proj2 (Hs _ _) Hv) as [b ->]. cbn.
  destruct b; [by rewrite andb_false_r|].
  destruct (grid_at2_defined grid Hwf _ _ Hv) as [c ->]. cbn.
  by destruct (c =? 1).
Qed.

Lemma push_neighbours_total (vis : list (list bool)) (n : Node)
    (ds : list (Z * Z)) (os : list (option Node)) (q : pq) :
  Forall2 (λ d o, neighbour_node grid (grid_rows grid) (grid_cols grid)
                    target.1 target.2 vis n d = Ok o) ds os →
  ∃ q', push_neighbours grid (grid_rows grid) (grid_cols grid)
          target.1 target.2 vis n ds q = Ok q' ∧
        pq_items q' ≡ₚ pushed os ++ pq_items q.
Proof.
  intros HF. revert q. induction HF as [|d o ds os Hd _ IH]; intros q; cbn.
  - by exists q.
  - rewrite Hd. cbn. destruct (IH (match o with Some m => pq_push m q | None => q end))
      as (q' & -> & Hp).
    exists q'. split; [done|]. rewrite Hp. destruct o as [m|]; cbn; [|done].
    rewrite pq_items_push. unfold pushed. by rewrite Permutation_middle.
Qed.

Lemma push_neighbours_spec (vis : list (list bool)) (n : Node) (q : pq) :
  shaped vis → in_grid grid (node_cell n) = true →
  ∃ q', push_neighbours grid (grid_rows grid) (grid_cols grid)
          target.1 target.2 vis n moves q = Ok q' ∧
        pq_items q' ≡ₚ successors vis n ++ pq_items q.
Proof.
  intros Hs Hn.
  destruct (push_neighbours_total vis n moves
              ((λ d : Z * Z,
                  let w := (node_x n + d.1, node_y n + d.2) in
                  if free grid w && negb (seen vis w)
                  then Some (child n w) else None)
               <$> moves) q) as (q' & Hq & Hp).
  - apply Forall2_fmap_r, Forall_Forall2_diag, Forall_forall.
    intros d Hd. by apply neighbour_node_spec.
  - exists q'. split; [done|]. rewrite Hp. reflexivity.
Qed.

Lemma elem_of_successors (vis : list (list bool)) (n m : Node) :
  m ∈ successors vis n ↔
  ∃ w, adjacent (node_cell n) w = true ∧ free grid w = true ∧
       seen vis w = false ∧ m = child n w.
Proof.
  unfold successors. rewrite list_elem_of_omap. split.
  - intros (d & Hd & H). cbn zeta in H.
    destruct (free grid _ && negb _) eqn:E; [|done].
    apply andb_true_iff in E as [Hf Hs%negb_true_iff]. injection H as <-.
    eexists. split; [|done]. apply adjacent_moves. by exists d.
  - intros (w & (d & Hd & ->)%adjacent_moves & Hf & Hs & ->).
    exists d. split; [done|]. cbn zeta. cbn [node_cell fst snd] in *.
    by rewrite Hf, Hs.
Qed.

(** The test of line 89. *)
Definition at_target (n : Node) : bool :=
  (node_x n =? target.1) && (node_y n =? target.2).

Lemma at_target_true (n : Node) : at_target n = true ↔ node_cell n = target.
Proof.
  unfold at_target, node_cell. destruct target as [tx ty]. cbn.
  rewrite andb_true_iff, !Z.eqb_eq. split; [by intros [-> ->]|by intros [= -> ->]].
Qed.

Lemma step_cases (st : search_state) :
  shaped (visited st) →
  Forall (λ m, in_grid grid (node_cell m) = true) (pq_items (frontier st)) →
  match pq_pop (frontier st) with
  | None =>
      step grid (grid_rows grid) (grid_cols grid) target.1 target.2 st
      = Finished (Ok [])
  | Some (n, q) =>
      if at_target n then
        step grid (grid_rows grid) (grid_cols grid) target.1 target.2 st
        = Finished (Ok (reverse (back_links n)))
      else
        ∃ vis' q',
          step grid (grid_rows grid) (grid_cols grid) target.1 target.2 st
          = Continue (mkState vis' q') ∧
          set2 (visited st) (node_x n) (node_y n) true = Ok vis' ∧
          pq_items q' ≡ₚ successors vis' n ++ pq_items q
  end.
Proof.
  intros Hs Hall. unfold step, at_target.
  destruct (pq_pop (frontier st)) as [[n q]|] eqn:Hpop; [|done].
  destruct (_ && _); [done|].
  apply pq_pop_some in Hpop as [Hperm _].
  assert (Hn : in_grid grid (node_cell n) = true).
  { rewrite Forall_forall in Hall. apply Hall. rewrite Hperm. by left. }
  destruct (proj2 (Hs _ _) Hn) as [b Hb].
  destruct (set2_defined _ _ _ true _ Hb) as [vis' Hset]. cbn [node_cell fst snd] in *.
  rewrite Hset.
  destruct (push_neighbours_spec vis' n q) as (q' & -> & Hq').
  { by eapply shaped_set2. }
  { done. }
  by exists vis', q'.
Qed.

(** *** The frontier holds routes *)

Definition node_ok (m : Node) : Prop :=
  in_grid grid (node_cell m) = true ∧
  route grid origin (node_cell m) (reverse (back_links m)).

Record base_inv (st : search_state) : Prop := {
  base_shape : shaped (visited st);
  base_target : seen (visited st) target = false;
  base_nodes : Forall node_ok (pq_items (frontier st))
}.

Lemma base_in_grid (st : search_state) :
  base_inv st →
  Forall (λ m, in_grid grid (node_cell m) = true) (pq_items (frontier st)).
Proof. intros [_ _ H]. eapply Forall_impl; [exact H|]. by intros m [? _]. Qed.

Lemma child_ok (n : Node) (w : cell) :
  node_ok n → adjacent (node_cell n) w = true → free grid w = true →
  node_ok (child n w).
Proof.
  intros [_ Hr] Ha Hf. split.
  - by apply free_in_grid.
  - destruct w as [wx wy].
    change (back_links (child n (wx, wy))) with ((wx, wy) :: back_links n).
    rewrite reverse_cons. by eapply route_step.
Qed.

Lemma base_step (st st' : search_state) :
  base_inv st →
  step grid (grid_rows grid) (grid_cols grid) target.1 target.2 st = Continue st' →
  base_inv st'.
Proof.
  intros Hb Hstep. pose proof (step_cases st (base_shape _ Hb) (base_in_grid _ Hb)) as Hc.
  destruct (pq_pop (frontier st)) as [[n q]|] eqn:Hpop; [|congruence].
  destruct (at_target n) eqn:Hat; [congruence|].
  destruct Hc as (vis' & q' & Hst & Hset & Hq'). rewrite Hst in Hstep.
  injection Hstep as <-. destruct Hb as [Hs Ht Hn].
  apply pq_pop_some in Hpop as [Hperm _]. rewrite Hperm in Hn.
  apply Forall_cons in Hn as [Hn Hq].
  split; cbn.
  - by eapply shaped_set2.
  - rewrite (seen_set2 _ _ _ _ _ Hset). case_decide as Hd; [|done].
    symmetry in Hd. apply at_target_true in Hd. congruence.
  - rewrite Hq'. apply Forall_app. split; [|done].
    apply Forall_forall. intros m (w & Ha & Hf & _ & ->)%elem_of_successors.
    by apply child_ok.
Qed.

Lemma base_finished (st : search_state) (r : outcome (list cell)) :
  base_inv st →
  step grid (grid_rows grid) (grid_cols grid) target.1 target.2 st = Finished r →
  ∃ p, r = Ok p ∧ (p = [] ∨ route grid origin target p).
Proof.
  intros Hb Hstep. pose proof (step_cases st (base_shape _ Hb) (base_in_grid _ Hb)) as Hc.
  destruct (pq_pop (frontier st)) as [[n q]|] eqn:Hpop.
  - destruct (at_target n) eqn:Hat.
    + rewrite Hc in Hstep. injection Hstep as <-. eexists. split; [done|]. right.
      apply pq_pop_some in Hpop as [Hperm _]. destruct Hb as [_ _ Hn].
      rewrite Hperm in Hn. apply Forall_cons in Hn as [[_ Hr] _].
      apply at_target_true in Hat. by rewrite <- Hat.
    + destruct Hc as (? & ? & Hst & _). congruence.
  - rewrite Hc in Hstep. injection Hstep as <-. eauto.
Qed.

(** *** Reasoning about the loop by an invariant *)

Lemma search_loop_rule (I : search_state → Prop) (P : outcome (list cell) → Prop) :
  (∀ st st', I st →
     step grid (grid_rows grid) (grid_cols grid) target.1 target.2 st = Continue st' →
     I st') →
  (∀ st r, I st →
     step grid (grid_rows grid) (grid_cols grid) target.1 target.2 st = Finished r →
     P r) →
  ∀ st, I st →
    P (search_loop grid (grid_rows grid) (grid_cols grid) target.1 target.2 st).
Proof.
  intros Hstep Hfin st.
  apply (search_loop_elim grid (grid_rows grid) (grid_cols grid) target.1 target.2
           (λ st r, I st → P r)).
  - intros st0 r e _ HI. eauto.
  - intros st0 st' Hs IH _ HI. eauto.
Qed.

(** *** The frontier covers the border of the closed set *)

Definition cover_inv (st : search_state) : Prop :=
  (seen (visited st) origin = false →
   ∃ m, m ∈ pq_items (frontier st) ∧ node_cell m = origin) ∧
  (∀ v w, seen (visited st) v = true → adjacent v w = true →
          free grid w = true → seen (visited st) w = false →
          ∃ m, m ∈ pq_items (frontier st) ∧ node_cell m = w).

Lemma kept_in_frontier (n m : Node) (q q' : pq) (items new : list Node) :
  items ≡ₚ n :: pq_items q → pq_items q' ≡ₚ new ++ pq_items q →
  m ∈ items → node_cell m ≠ node_cell n → m ∈ pq_items q'.
Proof.
  intros Hperm Hq' Hm Hne. rewrite Hq'. apply elem_of_app. right.
  rewrite Hperm in Hm. apply elem_of_cons in Hm as [->|Hm]; done.
Qed.

Lemma cover_step (st st' : search_state) :
  base_inv st → cover_inv st →
  step grid (grid_rows grid) (grid_cols grid) target.1 target.2 st = Continue st' →
  cover_inv st'.
Proof.
  intros Hb [H0 H3] Hstep.
  pose proof (step_cases st (base_shape _ Hb) (base_in_grid _ Hb)) as Hc.
  destruct (pq_pop (frontier st)) as [[n q]|] eqn:Hpop; [|congruence].
  destruct (at_target n) eqn:Hat; [congruence|].
  destruct Hc as (vis' & q' & Hst & Hset & Hq'). rewrite Hst in Hstep.
  injection Hstep as <-. apply pq_pop_some in Hpop as [Hperm _].
  split; cbn.
  - rewrite (seen_set2 _ _ _ _ _ Hset). case_decide as Hd; [done|].
    intros (m & Hm & Hcell)%H0. exists m. split; [|done].
    eapply kept_in_frontier; eauto. by rewrite Hcell.
  - intros v w Hv Ha Hf Hw.
    rewrite (seen_set2 _ _ _ _ _ Hset) in Hw. case_decide as Hd; [done|].
    rewrite (seen_set2 _ _ _ _ _ Hset) in Hv. case_decide as Hd'.
    + exists (child n w). split; [|by destruct w].
      rewrite Hq'. apply elem_of_app. left. apply elem_of_successors.
      exists w. rewrite (seen_set2 _ _ _ _ _ Hset), decide_False by done.
      by subst v.
    + destruct (H3 v w Hv Ha Hf Hw) as (m & Hm & Hcell). exists m. split; [|done].
      eapply kept_in_frontier; eauto. by rewrite Hcell.
Qed.

Lemma cover_route (st : search_state) (c : cell) (p : list cell) :
  cover_inv st → route grid origin c p → seen (visited st) c = false →
  ∃ m, m ∈ pq_items (frontier st).
Proof.
  intros [H0 H3]. induction 1 as [|c p d Hr IH Ha Hf]; intros Hs.
  - destruct (H0 Hs) as (m & Hm & _). eauto.
  - destruct (seen (visited st) c) eqn:Hc; [|by apply IH].
    destruct (H3 c d Hc Ha Hf Hs) as (m & Hm & _). eauto.
Qed.

Lemma cover_finished (st : search_state) (r : outcome (list cell)) (c : list cell) :
  base_inv st → cover_inv st → route grid origin target c →
  step grid (grid_rows grid) (grid_cols grid) target.1 target.2 st = Finished r →
  ∃ p, r = Ok p ∧ route grid origin target p.
Proof.
  intros Hb Hcov Hroute Hstep.
  destruct (base_finished st r Hb Hstep) as (p & -> & [->|Hp]); [|eauto].
  exfalso.
  destruct (cover_route st target c Hcov Hroute (base_target _ Hb)) as [m Hm].
  pose proof (step_cases st (base_shape _ Hb) (base_in_grid _ Hb)) as Hc.
  destruct (pq_pop (frontier st)) as [[n q]|] eqn:Hpop.
  - destruct (at_target n).
    + rewrite Hc in Hstep. injection Hstep as Hrev.
      apply (f_equal length) in Hrev. rewrite length_reverse in Hrev.
      by destruct n.
    + destruct Hc as (? & ? & Hst & _). congruence.
  - apply pq_pop_none in Hpop. rewrite Hpop in Hm. by apply elem_of_nil in Hm.
Qed.

(** *** Costs: the first node popped for a cell has the least [g] *)

Hypothesis Hfits : grid_fits grid = true.
Hypothesis Htarget : in_grid grid target = true.

Lemma fits_bound : grid_rows grid * grid_cols grid + grid_rows grid + grid_cols grid ≤ int_max.
Proof.
  unfold grid_fits in Hfits. apply Z.leb_le in Hfits. unfold int_max. lia.
Qed.

Lemma heuristic_manhattan (c : cell) :
  in_grid grid c = true →
  heuristic c.1 c.2 target.1 target.2 = manhattan c target.
Proof.
  intros [[? ?] [? ?]]%isValid_true.
  apply isValid_true in Htarget as [[? ?] [? ?]].
  pose proof fits_bound as Hb.
  unfold heuristic, manhattan, int_add, int_abs, int_sub.
  assert (0 ≤ grid_rows grid * grid_cols grid) by nia.
  unfold int_max in Hb.
  rewrite (wrap_small (_ - c.1)) by (unfold int_min, int_max; lia).
  rewrite (wrap_small (_ - c.2)) by (unfold int_min, int_max; lia).
  rewrite !(wrap_small (Z.abs _)) by (unfold int_min, int_max; lia).
  apply wrap_small. unfold int_min, int_max. lia.
Qed.

Lemma manhattan_step (c d : cell) :
  adjacent c d = true → manhattan c target ≤ manhattan d target + 1.
Proof. unfold adjacent, manhattan. intros H%Z.eqb_eq. lia. Qed.

Lemma manhattan_bound (c : cell) :
  in_grid grid c = true →
  0 ≤ manhattan c target ≤ grid_rows grid + grid_cols grid.
Proof.
  intros [[? ?] [? ?]]%isValid_true.
  apply isValid_true in Htarget as [[? ?] [? ?]]. unfold manhattan. lia.
Qed.

(** All the cells of the grid. *)
Definition all_cells : list cell :=
  list_prod (seqZ 0 (grid_rows grid)) (seqZ 0 (grid_cols grid)).

Lemma pigeonhole (l : list cell) :
  NoDup l → Forall (λ c, in_grid grid c = true) l →
  Z.of_nat (length l) ≤ grid_rows grid * grid_cols grid.
Proof.
  intros Hnd Hall.
  assert (Hsub : l ⊆+ all_cells).
  { apply NoDup_submseteq; [done|]. intros [x y] Hc.
    rewrite Forall_forall in Hall. apply Hall, isValid_true in Hc. cbn in Hc.
    apply list_elem_of_In, in_prod_iff. rewrite <- !list_elem_of_In, !elem_of_seqZ. lia. }
  apply submseteq_length in Hsub. unfold all_cells in Hsub.
  rewrite length_prod, !length_seqZ in Hsub.
  pose proof (wf_grid_rows grid Hwf). pose proof (wf_grid_cols grid Hwf). nia.
Qed.

Definition node_cost (vis : list (list bool)) (m : Node) : Prop :=
  node_g m = steps (back_links m) ∧
  node_h m = manhattan (node_cell m) target ∧
  NoDup (back_links m) ∧
  Forall (λ c, seen vis c = true) (tail (back_links m)).

Record opt_inv (st : search_state) : Prop := {
  opt_nodes : Forall (node_cost (visited st)) (pq_items (frontier st));
  opt_origin :
    seen (visited st) origin = false →
    ∃ m, m ∈ pq_items (frontier st) ∧ node_cell m = origin ∧ node_g m ≤ 0;
  opt_border :
    ∀ v p w, route grid origin v p → seen (visited st) v = true →
      adjacent v w = true → free grid w = true → seen (visited st) w = false →
      ∃ m, m ∈ pq_items (frontier st) ∧ node_cell m = w ∧
           node_g m ≤ steps p + 1
}.

Lemma back_links_head (m : Node) :
  back_links m = node_cell m :: tail (back_links m).
Proof. by destruct m. Qed.

(** The cost of a frontier node is small: its back links do not repeat a
    cell. *)
Lemma node_g_bound (vis : list (list bool)) (m : Node) :
  shaped vis → node_ok m → node_cost vis m →
  0 ≤ node_g m < grid_rows grid * grid_cols grid.
Proof.
  intros Hs [Hin _] (Hg & _ & Hnd & Hseen).
  assert (Z.of_nat (length (back_links m)) ≤ grid_rows grid * grid_cols grid).
  { apply pigeonhole; [done|]. rewrite back_links_head. constructor; [done|].
    eapply Forall_impl; [exact Hseen|]. intros c. by apply seen_in_grid. }
  rewrite Hg. unfold steps. rewrite back_links_head in *. cbn [length] in *. lia.
Qed.

Lemma node_f_exact (vis : list (list bool)) (m : Node) :
  shaped vis → node_ok m → node_cost vis m →
  node_f m = node_g m + manhattan (node_cell m) target.
Proof.
  intros Hs Hok Hc. pose proof (node_g_bound vis m Hs Hok Hc) as Hg.
  destruct Hok as [Hin _]. destruct Hc as (_ & Hh & _).
  pose proof (manhattan_bound _ Hin). pose proof fits_bound as Hb.
  unfold node_f, int_add. rewrite Hh. apply wrap_small.
  unfold int_min, int_max in *. lia.
Qed.

Lemma steps_snoc (p : list cell) (d : cell) : steps (p ++ [d]) = steps p + 1.
Proof. unfold steps. rewrite length_app. cbn. lia. Qed.

Lemma steps_reverse (p : list cell) : steps (reverse p) = steps p.
Proof. unfold steps. by rewrite length_reverse. Qed.

(** A route to an open cell crosses the border of the closed set: the
    frontier holds a node whose estimate is within the route's. *)
Lemma opt_witness (st : search_state) (c : cell) (p : list cell) :
  opt_inv st → route grid origin c p → seen (visited st) c = false →
  ∃ m, m ∈ pq_items (frontier st) ∧
       node_g m + manhattan (node_cell m) target ≤ steps p + manhattan c target.
Proof.
  intros [_ H0 H3]. induction 1 as [|c p d Hr IH Ha Hf]; intros Hs.
  - destruct (H0 Hs) as (m & Hm & Hcell & Hg). exists m. split; [done|].
    rewrite Hcell. unfold steps. cbn. lia.
  - rewrite steps_snoc. destruct (seen (visited st) c) eqn:Hc.
    + destruct (H3 c p d Hr Hc Ha Hf Hs) as (m & Hm & Hcell & Hg).
      exists m. split; [done|]. rewrite Hcell. lia.
    + destruct (IH eq_refl) as (m & Hm & Hle). exists m. split; [done|].
      pose proof (manhattan_step c d Ha). lia.
Qed.

Lemma popped_optimal (st : search_state) (n : Node) (q : pq) (p : list cell) :
  base_inv st → opt_inv st →
  pq_pop (frontier st) = Some (n, q) →
  seen (visited st) (node_cell n) = false →
  route grid origin (node_cell n) p →
  node_g n ≤ steps p.
Proof.
  intros Hb Ho Hpop Hs Hr.
  destruct (opt_witness st _ p Ho Hr Hs) as (m & Hm & Hle).
  apply pq_pop_some in Hpop as [Hperm Hmin].
  rewrite Forall_forall in Hmin. specialize (Hmin m Hm).
  pose proof (base_nodes _ Hb) as Hok. pose proof (opt_nodes _ Ho) as Hcost.
  rewrite Forall_forall in Hok, Hcost.
  assert (Hn : n ∈ pq_items (frontier st)) by (rewrite Hperm; by left).
  rewrite (node_f_exact (visited st) n), (node_f_exact (visited st) m) in Hmin
    by eauto using base_shape.
  lia.
Qed.

Lemma node_cost_mono (vis vis' : list (list bool)) (x y : Z) (m : Node) :
  set2 vis x y true = Ok vis' → node_cost vis m → node_cost vis' m.
Proof.
  intros Hset (Hg & Hh & Hnd & Hseen). repeat split; try done.
  eapply Forall_impl; [exact Hseen|]. intros c Hc. cbn.
  rewrite (seen_set2 _ _ _ _ _ Hset). by case_decide.
Qed.

Lemma child_cost (vis vis' : list (list bool)) (n : Node) (w : cell) :
  shaped vis → node_ok n → node_cost vis n →
  set2 vis (node_x n) (node_y n) true = Ok vis' →
  free grid w = true → seen vis' w = false →
  node_cost vis' (child n w) ∧ node_g (child n w) = node_g n + 1.
Proof.
  intros Hs Hok Hc Hset Hf Hw.
  pose proof (node_g_bound vis n Hs Hok Hc) as Hg. pose proof fits_bound as Hb.
  assert (Hg' : node_g (child n w) = node_g n + 1).
  { pose proof (wf_grid_rows grid Hwf). pose proof (wf_grid_cols grid Hwf).
    cbn. apply wrap_small. unfold int_min, int_max in *. lia. }
  split; [|done]. destruct Hc as (Hgn & Hh & Hnd & Hseen).
  assert (Hall : Forall (λ c, seen vis' c = true) (back_links n)).
  { rewrite back_links_head. constructor.
    - rewrite (seen_set2 _ _ _ _ _ Hset). by rewrite decide_True.
    - eapply Forall_impl; [exact Hseen|]. intros c Hc. cbn.
      rewrite (seen_set2 _ _ _ _ _ Hset). by case_decide. }
  destruct w as [wx wy]. unfold node_cost.
  change (back_links (child n (wx, wy))) with ((wx, wy) :: back_links n).
  repeat split.
  - rewrite Hg', Hgn. unfold steps. cbn [length]. lia.
  - cbn. apply (heuristic_manhattan (wx, wy)). by apply free_in_grid.
  - constructor; [|done]. intros Hin. rewrite Forall_forall in Hall.
    apply Hall in Hin. congruence.
  - done.
Qed.

Lemma opt_step (st st' : search_state) :
  base_inv st → opt_inv st →
  step grid (grid_rows grid) (grid_cols grid) target.1 target.2 st = Continue st' →
  opt_inv st'.
Proof.
  intros Hb Ho Hstep.
  pose proof (step_cases st (base_shape _ Hb) (base_in_grid _ Hb)) as Hc.
  destruct (pq_pop (frontier st)) as [[n q]|] eqn:Hpop; [|congruence].
  destruct (at_target n) eqn:Hat; [congruence|].
  destruct Hc as (vis' & q' & Hst & Hset & Hq'). rewrite Hst in Hstep.
  injection Hstep as <-.
  pose proof (pq_pop_some _ _ _ Hpop) as [Hperm _].
  pose proof (base_nodes _ Hb) as Hok. pose proof (opt_nodes _ Ho) as Hcost.
  rewrite Hperm in Hok, Hcost.
  apply Forall_cons in Hok as [Hokn Hokq]. apply Forall_cons in Hcost as [Hcn Hcq].
  split; cbn.
  - rewrite Hq'. apply Forall_app. split.
    + apply Forall_forall. intros m (w & Ha & Hf & Hw & ->)%elem_of_successors.
      by eapply child_cost; eauto using base_shape.
    + eapply Forall_impl; [exact Hcq|]. intros m. by eapply node_cost_mono.
  - rewrite (seen_set2 _ _ _ _ _ Hset). case_decide as Hd; [done|].
    intros (m & Hm & Hcell & Hg)%(opt_origin _ Ho). exists m. split; [|done].
    eapply kept_in_frontier; eauto. by rewrite Hcell.
  - intros v p w Hr Hv Ha Hf Hw.
    pose proof Hw as Hw'.
    rewrite (seen_set2 _ _ _ _ _ Hset) in Hw. case_decide as Hd; [done|].
    destruct (seen (visited st) v) eqn:Hvold.
    + destruct (opt_border _ Ho v p w Hr Hvold Ha Hf Hw) as (m & Hm & Hcell & Hg).
      exists m. split; [|done]. eapply kept_in_frontier; eauto. by rewrite Hcell.
    + rewrite (seen_set2 _ _ _ _ _ Hset) in Hv. case_decide as Hd'; [|congruence].
      subst v. exists (child n w).
      destruct (child_cost (visited st) vis' n w) as [_ Hg];
        eauto using base_shape.
      split; [|split; [by destruct w|]].
      * rewrite Hq'. apply elem_of_app. left. apply elem_of_successors. by exists w.
      * rewrite Hg. pose proof (popped_optimal st n q p Hb Ho Hpop Hvold Hr). lia.
Qed.

Lemma opt_finished (st : search_state) (r : outcome (list cell)) (c : list cell) :
  base_inv st → opt_inv st → route grid origin target c →
  step grid (grid_rows grid) (grid_cols grid) target.1 target.2 st = Finished r →
  ∃ p, r = Ok p ∧ route grid origin target p ∧
       ∀ p', route grid origin target p' → steps p ≤ steps p'.
Proof.
  intros Hb Ho Hroute Hstep.
  pose proof (opt_witness st target c Ho Hroute (base_target _ Hb)) as (m & Hm & _).
  pose proof (step_cases st (base_shape _ Hb) (base_in_grid _ Hb)) as Hc.
  destruct (pq_pop (frontier st)) as [[n q]|] eqn:Hpop.
  - destruct (at_target n) eqn:Hat.
    + rewrite Hc in Hstep. injection Hstep as <-.
      pose proof (pq_pop_some _ _ _ Hpop) as [Hperm _].
      pose proof (base_nodes _ Hb) as Hok. pose proof (opt_nodes _ Ho) as Hcost.
      rewrite Hperm in Hok, Hcost.
      apply Forall_cons in Hok as [[_ Hrn] _]. apply Forall_cons in Hcost as [Hcn _].
      apply at_target_true in Hat. rewrite Hat in Hrn.
      eexists. split; [done|]. split; [done|]. intros p' Hp'.
      rewrite steps_reverse. destruct Hcn as (<- & _).
      eapply popped_optimal; eauto.
      * rewrite Hat. by apply base_target.
      * by rewrite Hat.
    + destruct Hc as (? & ? & Hst & _). congruence.
  - apply pq_pop_none in Hpop. rewrite Hpop in Hm. by apply elem_of_nil in Hm.
Qed.

End StepFacts.

(** ** The search from its first state *)

Section AStar.
Context `{PQ : PriorityQueue}.
Variable grid : Grid.
Hypothesis Hwf : wf_grid grid = true.
Variables origin target : cell.

(** The state in which [aStar] enters the while loop. *)
Definition first_state : search_state :=
  mkState
    (replicate (Z.to_nat (grid_rows grid))
       (replicate (Z.to_nat (grid_cols grid)) false))
    (pq_push
       (mkNode origin.1 origin.2 0
          (heuristic origin.1 origin.2 target.1 target.2) None)
       pq_empty).

Lemma aStar_first_state :
  sized_grid grid = true →
  aStar grid origin.1 origin.2 target.1 target.2 =
  search_loop grid (grid_rows grid) (grid_cols grid) target.1 target.2 first_state.
Proof.
  clear Hwf. intros Hsized.
  pose proof (sized_grid_rows grid Hsized) as Hr.
  pose proof (sized_grid_cols grid Hsized) as Hc.
  unfold aStar, first_state. destruct grid as [|row0 g] eqn:E; [done|].
  change (vec_at (row0 :: g) 0) with (Ok row0). cbn [mbind outcome_bind].
  change (Z.of_nat (length (row0 :: g))) with (grid_rows (row0 :: g)).
  change (Z.of_nat (length row0)) with (grid_cols (row0 :: g)).
  rewrite !wrap_small by (unfold int_min, int_max in *; lia).
  destruct (Z.ltb_spec (grid_rows (row0 :: g)) 0); [lia|].
  destruct (Z.ltb_spec (grid_cols (row0 :: g)) 0); [lia|]. done.
Qed.

Lemma first_state_items :
  pq_items (frontier first_state) =
  [mkNode origin.1 origin.2 0 (heuristic origin.1 origin.2 target.1 target.2) None].
Proof.
  cbn. apply Permutation_singleton_r. by rewrite pq_items_push, pq_items_empty.
Qed.

Lemma first_state_base :
  in_grid grid origin = true → base_inv grid origin target first_state.
Proof.
  intros Hin. split.
  - by apply shaped_replicate.
  - apply seen_replicate.
  - rewrite first_state_items. constructor; [|constructor]. split.
    + by destruct origin.
    + cbn. destruct origin. constructor.
Qed.

Lemma first_state_cover : cover_inv grid origin first_state.
Proof.
  split.
  - intros _. eexists. rewrite first_state_items. split; [by left|].
    by destruct origin.
  - intros v w Hv. cbn in Hv. by rewrite seen_replicate in Hv.
Qed.

Lemma first_state_opt :
  grid_fits grid = true → in_grid grid origin = true → in_grid grid target = true →
  opt_inv grid origin target first_state.
Proof.
  intros Hfits Hin Ht. split.
  - rewrite first_state_items. constructor; [|constructor].
    split; [done|]. split; [|split].
    + pose proof (heuristic_manhattan grid target Hfits Ht origin Hin) as Hh.
      by destruct origin.
    + apply NoDup_singleton.
    + constructor.
  - intros _. eexists. rewrite first_state_items. split; [by left|].
    split; [by destruct origin|done].
  - intros v p w _ Hv. cbn in Hv. by rewrite seen_replicate in Hv.
Qed.

(** The search returns, and what it returns is empty or a route. *)
Lemma aStar_returns :
  in_grid grid origin = true →
  ∃ p, aStar grid origin.1 origin.2 target.1 target.2 = Ok p ∧
       (p = [] ∨ route grid origin target p).
Proof.
  intros Hin. rewrite aStar_first_state by (by apply wf_grid_sized).
  apply (search_loop_rule grid target (base_inv grid origin target)).
  - intros st st'. by apply base_step.
  - intros st r. by apply base_finished.
  - by apply first_state_base.
Qed.

(** If the target can be reached, the search returns a route. *)
Lemma aStar_finds (c : list cell) :
  in_grid grid origin = true → route grid origin target c →
  ∃ p, aStar grid origin.1 origin.2 target.1 target.2 = Ok p ∧
       route grid origin target p.
Proof.
  intros Hin Hc. rewrite aStar_first_state by (by apply wf_grid_sized).
  apply (search_loop_rule grid target
           (λ st, base_inv grid origin target st ∧ cover_inv grid origin st)).
  - intros st st' [Hb Hcov] Hstep. split.
    + by eapply base_step.
    + by eapply cover_step.
  - intros st r [Hb Hcov]. by eapply cover_finished.
  - split; [by apply first_state_base|apply first_state_cover].
Qed.

Lemma route_target_in_grid (c : list cell) :
  in_grid grid origin = true → route grid origin target c →
  in_grid grid target = true.
Proof. intros Hin Hr. destruct Hr; [done|]. by apply free_in_grid. Qed.

(** If the target can be reached, the search returns a route of the least
    number of steps. *)
Lemma aStar_least (c : list cell) :
  grid_fits grid = true → in_grid grid origin = true →
  route grid origin target c →
  ∃ p, aStar grid origin.1 origin.2 target.1 target.2 = Ok p ∧
       route grid origin target p ∧
       ∀ p', route grid origin target p' → steps p ≤ steps p'.
Proof.
  intros Hfits Hin Hc. pose proof (route_target_in_grid c Hin Hc) as Ht.
  rewrite aStar_first_state by (by apply wf_grid_sized).
  apply (search_loop_rule grid target
           (λ st, base_inv grid origin target st ∧ opt_inv grid origin target st)).
  - intros st st' [Hb Ho] Hstep. split.
    + by eapply base_step.
    + by eapply opt_step.
  - intros st r [Hb Ho]. by eapply opt_finished.
  - split; [by apply first_state_base|by apply first_state_opt].
Qed.

End AStar.

(** ** Routes, cell by cell *)

(** A checker for routes: [rest] continues a walk that stands on [c]. *)
Fixpoint walk_ok (grid : Grid) (c : cell) (rest : list cell) : bool :=
  match rest with
  | [] => true
  | d :: rest' => adjacent c d && free grid d && walk_ok grid d rest'
  end.

Definition is_route (grid : Grid) (origin target : cell) (p : list cell) : bool :=
  match p with
  | [] => false
  | c :: rest =>
      bool_decide (c = origin) && walk_ok grid c rest &&
      bool_decide (last p = Some target)
  end.

Lemma walk_ok_snoc (grid : Grid) (c d : cell) (rest : list cell) :
  walk_ok grid c (rest ++ [d]) =
  walk_ok grid c rest && adjacent (default c (last rest)) d && free grid d.
Proof.
  revert c. induction rest as [|e rest IH]; intros c; cbn [walk_ok app].
  - cbn. by destruct (adjacent c d), (free grid d).
  - rewrite IH. rewrite !andb_assoc. do 2 f_equal.
    rewrite last_cons. by destruct (last rest).
Qed.

Lemma walk_route (grid : Grid) (origin : cell) (rest : list cell) :
  walk_ok grid origin rest = true →
  route grid origin (default origin (last rest)) (origin :: rest).
Proof.
  induction rest as [|d rest IH] using rev_ind; intros H.
  - constructor.
  - rewrite walk_ok_snoc in H.
    apply andb_true_iff in H as [[Hw Ha]%andb_true_iff Hf].
    rewrite last_snoc. cbn [default]. rewrite app_comm_cons.
    eapply route_step; eauto.
Qed.

Lemma is_route_route (grid : Grid) (origin target : cell) (p : list cell) :
  is_route grid origin target p = true → route grid origin target p.
Proof.
  unfold is_route. destruct p as [|c rest]; [done|].
  intros [[Hc Hw]%andb_true_iff Hl]%andb_true_iff.
  apply bool_decide_eq_true in Hc as ->. apply bool_decide_eq_true in Hl.
  pose proof (walk_route grid origin rest Hw) as Hr.
  destruct rest as [|d rest].
  - cbn in Hl. by injection Hl as <-.
  - rewrite last_cons_cons in Hl. by rewrite Hl in Hr.
Qed.

Lemma route_is_route (grid : Grid) (origin target : cell) (p : list cell) :
  route grid origin target p → is_route grid origin target p = true.
Proof.
  induction 1 as [|c p d Hr IH Ha Hf].
  - cbn. by rewrite !bool_decide_eq_true_2.
  - unfold is_route in *. destruct p as [|c0 rest]; [done|].
    apply andb_true_iff in IH as [[Hc Hw]%andb_true_iff Hl].
    apply bool_decide_eq_true in Hc as ->. apply bool_decide_eq_true in Hl.
    rewrite <- app_comm_cons, walk_ok_snoc, Hw, Hf.
    rewrite last_cons in Hl.
    assert (default origin (last rest) = c) as ->
      by (destruct (last rest); by injection Hl).
    rewrite Ha, bool_decide_eq_true_2 by done. cbn.
    apply bool_decide_eq_true. by rewrite app_comm_cons, last_snoc.
Qed.

(** What a route is, cell by cell: it starts at the origin, ends at the
    target, consecutive cells are adjacent and every cell after the first
    is in bounds and not an obstacle. *)
Lemma route_spec (grid : Grid) (origin c : cell) (p : list cell) :
  route grid origin c p →
  head p = Some origin ∧ last p = Some c ∧
  (∀ i a b, p !! i = Some a → p !! S i = Some b → adjacent a b = true) ∧
  Forall (λ d, free grid d = true) (tail p).
Proof.
  induction 1 as [|c p d Hr (Hh & Hl & Hadj & Hfree) Ha Hf].
  - repeat split; try done.
  - assert (Hp : p ≠ []) by (by destruct p).
    repeat split.
    + by destruct p.
    + apply last_snoc.
    + intros i a b Hi Hi'.
      destruct (decide (S i < length p)%nat) as [Hlt|Hge].
      * rewrite lookup_app_l in Hi, Hi' by lia. eauto.
      * assert (S i = length p) as Hlen.
        { apply lookup_lt_Some in Hi'. rewrite length_app in Hi'. cbn in Hi'. lia. }
        rewrite lookup_app_l in Hi by lia.
        rewrite Hlen, lookup_app_r in Hi' by lia.
        rewrite Nat.sub_diag in Hi'. injection Hi' as <-.
        rewrite last_lookup, <- Hlen in Hl. cbn in Hl. congruence.
    + destruct p as [|e p]; [done|]. cbn in *. apply Forall_app. split; [done|].
      by constructor.
Qed.

(** ** The search engine: optimality, soundness, completeness *)

(** The grid of the example scenario: a wall in column 2, rows 0 to 3. *)
Definition wall_grid : Grid :=
  [[0; 0; 1; 0; 0];
   [0; 0; 1; 0; 0];
   [0; 0; 1; 0; 0];
   [0; 0; 1; 0; 0];
   [0; 0; 0; 0; 0]].

(** C1 (optimality).  On a well-formed grid whose size fits the [int]
    arithmetic of the search, for an origin in bounds and a target that some
    route reaches, [aStar] returns a route from the origin to the target
    whose number of steps is the least among all routes, whatever the order
    in which the frontier returns nodes of equal total cost; the heuristic
    it orders the frontier by is the Manhattan distance to the target. *)
Theorem aStar_optimal `{PriorityQueue} (grid : Grid) (origin target : cell)
    (q : list cell) :
  wf_grid grid = true → grid_fits grid = true → in_grid grid origin = true →
  route grid origin target q →
  (∃ p, aStar grid origin.1 origin.2 target.1 target.2 = Ok p ∧
        route grid origin target p ∧
        ∀ q', route grid origin target q' → steps p ≤ steps q') ∧
  (∀ c, in_grid grid c = true →
        heuristic c.1 c.2 target.1 target.2 = manhattan c target).
Proof.
  intros Hwf Hfits Hin Hq. split.
  - by eapply aStar_least.
  - intros c Hc.
    apply (heuristic_manhattan grid target Hfits
             (route_target_in_grid grid origin target q Hin Hq) c Hc).
Qed.

Lemma aStar_optimal_witness :
  (∃ p, @aStar fifo_pq wall_grid 0 0 4 4 = Ok p ∧
        route wall_grid (0, 0) (4, 4) p ∧
        ∀ q', route wall_grid (0, 0) (4, 4) q' → steps p ≤ steps q') ∧
  (∀ c, in_grid wall_grid c = true → heuristic c.1 c.2 4 4 = manhattan c (4, 4)).
Proof.
  apply (@aStar_optimal fifo_pq wall_grid (0, 0) (4, 4)
           [(0, 0); (1, 0); (2, 0); (3, 0); (4, 0); (4, 1); (4, 2); (4, 3); (4, 4)]).
  - reflexivity.
  - reflexivity.
  - reflexivity.
  - apply is_route_route. reflexivity.
Defined.

(** C2 (soundness).  On a well-formed grid, for an origin that is in
    bounds and not an obstacle, a non-empty path returned by [aStar] has
    every two consecutive cells adjacent (one step in exactly one axis),
    every cell in bounds and not an obstacle, the origin as its first cell
    and the target as its last. *)
Theorem aStar_sound `{PriorityQueue} (grid : Grid) (origin target : cell)
    (p : list cell) :
  wf_grid grid = true → free grid origin = true →
  aStar grid origin.1 origin.2 target.1 target.2 = Ok p → p ≠ [] →
  (∀ i a b, p !! i = Some a → p !! S i = Some b → adjacent a b = true) ∧
  Forall (λ c, free grid c = true) p ∧
  head p = Some origin ∧ last p = Some target.
Proof.
  intros Hwf Hfree Hp Hne.
  destruct (aStar_returns grid Hwf origin target (free_in_grid _ _ Hfree))
    as (p' & Hp' & Hr).
  rewrite Hp in Hp'. injection Hp' as <-. destruct Hr as [->|Hr]; [done|].
  apply route_spec in Hr as (Hh & Hl & Hadj & Hfr).
  repeat split; try done.
  destruct p as [|c p]; [done|]. injection Hh as ->. by constructor.
Qed.

Lemma aStar_sound_witness :
  let p := [(4, 4); (3, 4); (2, 4); (1, 4); (0, 4)] in
  (∀ i a b, p !! i = Some a → p !! S i = Some b → adjacent a b = true) ∧
  Forall (λ c, free wall_grid c = true) p ∧
  head p = Some (4, 4) ∧ last p = Some (0, 4).
Proof.
  apply (@aStar_sound lifo_pq wall_grid (4, 4) (0, 4)).
  - reflexivity.
  - reflexivity.
  - vm_compute. reflexivity.
  - discriminate.
Defined.

(** *** Completeness *)

(** An obstacle-avoiding path from [origin] to [target]: it starts at the
    origin and ends at the target, consecutive cells are adjacent, and
    every cell of it, the first one too, is in bounds and not an
    obstacle. *)
Definition avoiding (grid : Grid) (origin target : cell) (p : list cell) : Prop :=
  head p = Some origin ∧ last p = Some target ∧
  (∀ i a b, p !! i = Some a → p !! S i = Some b → adjacent a b = true) ∧
  Forall (λ c, free grid c = true) p.

Lemma walk_ok_steps (grid : Grid) (c : cell) (rest : list cell) :
  (∀ i a b, (c :: rest) !! i = Some a → (c :: rest) !! S i = Some b →
            adjacent a b = true) →
  Forall (λ d, free grid d = true) rest →
  walk_ok grid c rest = true.
Proof.
  revert c. induction rest as [|d rest IH]; intros c Hadj Hfree; [done|].
  apply Forall_cons in Hfree as [Hd Hfree]. cbn [walk_ok].
  rewrite (Hadj 0%nat c d eq_refl eq_refl), Hd. cbn. apply IH; [|done].
  intros i a b Ha Hb. by apply (Hadj (S i)).
Qed.

(** The obstacle-avoiding paths are the routes from an origin that is not
    an obstacle. *)
Lemma avoiding_route (grid : Grid) (origin target : cell) (p : list cell) :
  avoiding grid origin target p ↔
  free grid origin = true ∧ route grid origin target p.
Proof.
  split.
  - intros (Hh & Hl & Hadj & Hfree). destruct p as [|c rest]; [done|].
    injection Hh as ->. apply Forall_cons in Hfree as [Ho Hrest].
    split; [done|]. apply is_route_route. unfold is_route.
    rewrite (walk_ok_steps grid origin rest Hadj Hrest).
    by rewrite !bool_decide_eq_true_2.
  - intros [Ho Hr]. pose proof (route_spec grid origin target p Hr)
      as (Hh & Hl & Hadj & Hfree).
    repeat split; try done. destruct p as [|c rest]; [done|].
    injection Hh as ->. by constructor.
Qed.

(** The search is complete for routes, which do not ask what the grid
    holds at the origin. *)
Lemma aStar_route_complete `{PriorityQueue} (grid : Grid) (origin target : cell) :
  wf_grid grid = true → in_grid grid origin = true →
  ((∃ q, route grid origin target q) →
   ∃ p, aStar grid origin.1 origin.2 target.1 target.2 = Ok p ∧ p ≠ [] ∧
        route grid origin target p) ∧
  ((¬ ∃ q, route grid origin target q) →
   aStar grid origin.1 origin.2 target.1 target.2 = Ok []).
Proof.
  intros Hwf Hin. split.
  - intros [q Hq]. destruct (aStar_finds grid Hwf origin target q Hin Hq) as (p & Hp & Hr).
    exists p. repeat split; try done. intros ->. inversion Hr as [|? p' ? ? ? ? E].
    by destruct p'.
  - intros Hno. destruct (aStar_returns grid Hwf origin target Hin) as (p & Hp & [->|Hr]).
    + done.
    + destruct Hno. eauto.
Qed.

(** C3, as the claim states it: for every in-bounds origin, obstacle or
    not, [aStar] returns a non-empty path when an obstacle-avoiding path
    from the origin to the target exists, and the empty path when none
    exists. *)
Definition complete_for_every_origin : Prop :=
  ∀ (Q : PriorityQueue) (grid : Grid) (origin target : cell),
    wf_grid grid = true → in_grid grid origin = true →
    ((∃ q, avoiding grid origin target q) →
     ∃ p, @aStar Q grid origin.1 origin.2 target.1 target.2 = Ok p ∧ p ≠ []) ∧
    ((¬ ∃ q, avoiding grid origin target q) →
     @aStar Q grid origin.1 origin.2 target.1 target.2 = Ok []).

(** C3, counterexample.  On the grid of the example scenario the cell
    (0,2) is an obstacle, so no obstacle-avoiding path starts there; yet the
    search from (0,2) for its neighbour (0,3) returns the path of the two
    cells, not the empty path: line 81 pushes the start node without a look
    at the map, and line 110 tests the neighbours only. *)
Lemma complete_for_every_origin_counterexample : ¬ complete_for_every_origin.
Proof.
  intros Hclaim.
  destruct (Hclaim fifo_pq wall_grid (0, 2) (0, 3) eq_refl eq_refl) as [_ Hnone].
  assert (Hempty : @aStar fifo_pq wall_grid 0 2 0 3 = Ok []).
  { apply Hnone. intros [q [Hfree _]%avoiding_route]. by vm_compute in Hfree. }
  assert (Hreal : @aStar fifo_pq wall_grid 0 2 0 3 = Ok [(0, 2); (0, 3)])
    by (by vm_compute).
  rewrite Hreal in Hempty. discriminate.
Qed.

(** C3, amended (completeness, no fault).  On a well-formed grid and for
    an origin in bounds, [aStar] returns a value, never a fault.  When the
    origin is not an obstacle, it returns a non-empty path, itself
    obstacle-avoiding, when an obstacle-avoiding path from the origin to the
    target exists, and the empty path when none exists.  The cell of the
    origin is never tested: from every origin in bounds, an obstacle too,
    the search returns a non-empty path exactly when the target can be
    reached by steps into adjacent cells that are in bounds and not
    obstacles, and the empty path otherwise. *)
Theorem aStar_complete_passable `{PriorityQueue} (grid : Grid)
    (origin target : cell) :
  wf_grid grid = true → in_grid grid origin = true →
  (∃ p, aStar grid origin.1 origin.2 target.1 target.2 = Ok p) ∧
  (free grid origin = true →
   ((∃ q, avoiding grid origin target q) →
    ∃ p, aStar grid origin.1 origin.2 target.1 target.2 = Ok p ∧ p ≠ [] ∧
         avoiding grid origin target p) ∧
   ((¬ ∃ q, avoiding grid origin target q) →
    aStar grid origin.1 origin.2 target.1 target.2 = Ok [])) ∧
  ((∃ q, route grid origin target q) →
   ∃ p, aStar grid origin.1 origin.2 target.1 target.2 = Ok p ∧ p ≠ [] ∧
        route grid origin target p) ∧
  ((¬ ∃ q, route grid origin target q) →
   aStar grid origin.1 origin.2 target.1 target.2 = Ok []).
Proof.
  intros Hwf Hin.
  destruct (aStar_route_complete grid origin target Hwf Hin) as [Hfind Hnone].
  split; [|split; [|done]].
  - destruct (aStar_returns grid Hwf origin target Hin) as (p & Hp & _). eauto.
  - intros Hfree. split.
    + intros [q [_ Hq]%avoiding_route].
      destruct Hfind as (p & Hp & Hne & Hr); [eauto|].
      exists p. split; [done|]. split; [done|]. by apply avoiding_route.
    + intros Hno. apply Hnone. intros [q Hq]. apply Hno. exists q.
      by apply avoiding_route.
Qed.

Lemma aStar_complete_passable_witness :
  (∃ p, @aStar fifo_pq wall_grid 0 0 0 4 = Ok p) ∧
  (free wall_grid (0, 0) = true →
   ((∃ q, avoiding wall_grid (0, 0) (0, 4) q) →
    ∃ p, @aStar fifo_pq wall_grid 0 0 0 4 = Ok p ∧ p ≠ [] ∧
         avoiding wall_grid (0, 0) (0, 4) p) ∧
   ((¬ ∃ q, avoiding wall_grid (0, 0) (0, 4) q) →
    @aStar fifo_pq wall_grid 0 0 0 4 = Ok [])) ∧
  ((∃ q, route wall_grid (0, 0) (0, 4) q) →
   ∃ p, @aStar fifo_pq wall_grid 0 0 0 4 = Ok p ∧ p ≠ [] ∧
        route wall_grid (0, 0) (0, 4) p) ∧
  ((¬ ∃ q, route wall_grid (0, 0) (0, 4) q) →
   @aStar fifo_pq wall_grid 0 0 0 4 = Ok []).
Proof.
  apply (@aStar_complete_passable fifo_pq wall_grid (0, 0) (0, 4)).
  - reflexivity.
  - reflexivity.
Defined.

(** C8.  On every grid that has a first row and whose sizes are values of
    [int], rows of one length or not, [aStar] called with the target equal
    to the origin returns the path of that single cell, whatever the cell:
    in bounds or not, obstacle or not. *)
Theorem aStar_origin_is_target `{PriorityQueue} (grid : Grid) (x y : Z) :
  sized_grid grid = true → aStar grid x y x y = Ok [(x, y)].
Proof.
  intros Hsized. rewrite (aStar_first_state grid (x, y) (x, y) Hsized).
  rewrite search_loop_step. unfold step.
  pose proof (first_state_items grid (x, y) (x, y)) as Hitems.
  destruct (pq_pop (frontier (first_state grid (x, y) (x, y))))
    as [[n q]|] eqn:Hpop.
  - apply pq_pop_some in Hpop as [Hperm _]. rewrite Hitems in Hperm.
    apply Permutation_singleton_l in Hperm. injection Hperm as <- _.
    cbn. by rewrite !Z.eqb_refl.
  - apply pq_pop_none in Hpop. by rewrite Hitems in Hpop.
Qed.

Lemma aStar_origin_is_target_witness :
  @aStar fifo_pq wall_grid 0 2 0 2 = Ok [(0, 2)] ∧
  @aStar fifo_pq wall_grid (-3) 7 (-3) 7 = Ok [(-3, 7)].
Proof.
  split.
  - apply (@aStar_origin_is_target fifo_pq wall_grid 0 2). reflexivity.
  - apply (@aStar_origin_is_target fifo_pq wall_grid (-3) 7). reflexivity.
Defined.

(** ** The planner: buckets, listing and report *)

(** The destinations of priority [k], in their input order. *)
Definition tier_of (k : Z) (ds : list Destination) : list Destination :=
  filter (λ d, d.2 = k) ds.

(** The destinations of the three tiers, tier after tier. *)
Definition selected (ds : list Destination) : list Destination :=
  tier_of 1 ds ++ tier_of 2 ds ++ tier_of 3 ds.

Definition priorities_in_range (ds : list Destination) : Prop :=
  Forall (λ d, 0 ≤ d.2 ≤ 3) ds.

Lemma tier_of_cons (k : Z) (d : cell) (p : Z) (ds : list Destination) :
  tier_of k ((d, p) :: ds) = if decide (p = k) then (d, p) :: tier_of k ds else tier_of k ds.
Proof. unfold tier_of. rewrite filter_cons. cbn. by case_decide. Qed.

Lemma fill_buckets_spec (ds : list Destination) (b0 b1 b2 b3 : list cell) :
  priorities_in_range ds →
  fill_buckets ds [b0; b1; b2; b3] =
  Ok [b0 ++ (tier_of 0 ds).*1; b1 ++ (tier_of 1 ds).*1;
      b2 ++ (tier_of 2 ds).*1; b3 ++ (tier_of 3 ds).*1].
Proof.
  intros Hr. revert b0 b1 b2 b3.
  induction Hr as [|[d p] ds Hp _ IH]; intros b0 b1 b2 b3.
  - cbn. by rewrite !app_nil_r.
  - cbn in Hp. rewrite !tier_of_cons. cbn [fill_buckets].
    assert (p = 0 ∨ p = 1 ∨ p = 2 ∨ p = 3) as [-> | [-> | [-> | ->]]] by lia.
    + change (vec_at [b0; b1; b2; b3] 0) with (Ok b0). cbn [mbind outcome_bind].
      change (<[Z.to_nat 0 := b0 ++ [d]]> [b0; b1; b2; b3])
        with [b0 ++ [d]; b1; b2; b3].
      rewrite IH. repeat case_decide; try lia. cbn. by rewrite <- app_assoc.
    + change (vec_at [b0; b1; b2; b3] 1) with (Ok b1). cbn [mbind outcome_bind].
      change (<[Z.to_nat 1 := b1 ++ [d]]> [b0; b1; b2; b3])
        with [b0; b1 ++ [d]; b2; b3].
      rewrite IH. repeat case_decide; try lia. cbn. by rewrite <- app_assoc.
    + change (vec_at [b0; b1; b2; b3] 2) with (Ok b2). cbn [mbind outcome_bind].
      change (<[Z.to_nat 2 := b2 ++ [d]]> [b0; b1; b2; b3])
        with [b0; b1; b2 ++ [d]; b3].
      rewrite IH. repeat case_decide; try lia. cbn. by rewrite <- app_assoc.
    + change (vec_at [b0; b1; b2; b3] 3) with (Ok b3). cbn [mbind outcome_bind].
      change (<[Z.to_nat 3 := b3 ++ [d]]> [b0; b1; b2; b3])
        with [b0; b1; b2; b3 ++ [d]].
      rewrite IH. repeat case_decide; try lia. cbn. by rewrite <- app_assoc.
Qed.

Lemma fill_buckets_fault (ds : list Destination) (bs : list (list cell)) :
  length bs = 4%nat → ¬ priorities_in_range ds → fill_buckets ds bs = Fault.
Proof.
  revert bs. induction ds as [|[d p] ds IH]; intros bs Hlen Hr.
  - destruct Hr. constructor.
  - cbn. unfold vec_at. destruct (decide (0 ≤ p)) as [Hp|Hp]; [|done].
    destruct (bs !! Z.to_nat p) as [b|] eqn:Hb; [|done]. cbn.
    apply IH; [by rewrite length_insert|].
    intros Hds. apply Hr. constructor; [|done]. cbn.
    apply lookup_lt_Some in Hb. lia.
Qed.

Lemma sorted_addresses_tiers (b0 b1 b2 b3 : list cell) :
  sorted_addresses tiers [b0; b1; b2; b3] =
  Ok (((λ d, (d, 1)) <$> b1) ++ ((λ d, (d, 2)) <$> b2) ++ ((λ d, (d, 3)) <$> b3)).
Proof.
  unfold tiers. cbn [sorted_addresses].
  change (vec_at [b0; b1; b2; b3] 1) with (Ok b1).
  change (vec_at [b0; b1; b2; b3] 2) with (Ok b2).
  change (vec_at [b0; b1; b2; b3] 3) with (Ok b3).
  cbn [mbind outcome_bind]. by rewrite app_nil_r.
Qed.

Lemma tier_of_pairs (k : Z) (ds : list Destination) :
  (λ d, (d, k)) <$> (tier_of k ds).*1 = tier_of k ds.
Proof.
  induction ds as [|[d p] ds IH]; [done|]. rewrite tier_of_cons.
  case_decide as Hp; [|done]. subst p. cbn. by rewrite IH.
Qed.

(** Where the next leg starts: line 160 moves the start point only after
    a path was found. *)
Definition next_origin (l : Leg) : cell :=
  if leg_found l then leg_dest l else leg_origin l.

(** Each leg starts where the previous one left the start point. *)
Fixpoint chained (start : cell) (legs : list Leg) : Prop :=
  match legs with
  | [] => True
  | l :: rest => leg_origin l = start ∧ chained (next_origin l) rest
  end.

Definition final_origin (start : cell) (legs : list Leg) : cell :=
  match last legs with
  | Some l => next_origin l
  | None => start
  end.

Lemma chained_app (start : cell) (l1 l2 : list Leg) :
  chained start l1 → chained (final_origin start l1) l2 → chained start (l1 ++ l2).
Proof.
  revert start. induction l1 as [|l l1 IH]; intros start; cbn; [done|].
  intros [Ho H1] H2. split; [done|]. apply IH; [done|].
  unfold final_origin in *. rewrite last_cons in H2.
  by destruct (last l1).
Qed.

Lemma chained_lookup (start : cell) (legs : list Leg) :
  chained start legs →
  (∀ l, legs !! 0%nat = Some l → leg_origin l = start) ∧
  (∀ i l l', legs !! i = Some l → legs !! S i = Some l' →
     leg_origin l' = next_origin l).
Proof.
  revert start. induction legs as [|l0 legs IH]; intros start; cbn; [done|].
  intros [Ho Hc]. destruct (IH _ Hc) as [IH0 IHS]. split.
  - by intros l [= <-].
  - intros [|i] l l'; cbn.
    + intros [= <-]. apply IH0.
    + apply IHS.
Qed.

Section PlannerFacts.
Context `{PQ : PriorityQueue}.
Variable grid : Grid.
Hypothesis Hwf : wf_grid grid = true.

(** The path of a leg is what [aStar] returned for its origin and
    destination. *)
Definition leg_searched (l : Leg) : Prop :=
  aStar grid (leg_origin l).1 (leg_origin l).2 (leg_dest l).1 (leg_dest l).2
  = Ok (leg_path l).

Lemma run_bucket_spec (priority : Z) (dests : list cell) (start : cell) :
  in_grid grid start = true →
  ∃ legs,
    run_bucket grid priority dests start = Ok (legs, final_origin start legs) ∧
    in_grid grid (final_origin start legs) = true ∧
    (λ l, (leg_dest l, leg_priority l)) <$> legs = (λ d, (d, priority)) <$> dests ∧
    chained start legs ∧ Forall leg_searched legs.
Proof.
  revert start. induction dests as [|[dx dy] dests IH]; intros start Hin.
  - exists []. by repeat split.
  - cbn [run_bucket fst snd].
    destruct (aStar_returns grid Hwf start (dx, dy) Hin) as (path & Hp & Hr).
    cbn [fst snd] in Hp. rewrite Hp. cbn [mbind outcome_bind].
    set (start' := match path with [] => start | _ => (dx, dy) end).
    assert (Hin' : in_grid grid start' = true).
    { subst start'. destruct Hr as [->|Hr]; [done|].
      destruct path; [done|]. by eapply route_target_in_grid. }
    destruct (IH start' Hin') as (legs & -> & Hf & Hd & Hc & Hs).
    cbn [mbind outcome_bind fst snd].
    set (l := mkLeg start (dx, dy) priority path).
    assert (Hn : next_origin l = start')
      by (subst l start'; unfold next_origin, leg_found; by destruct path).
    assert (Hfin : final_origin start (l :: legs) = final_origin start' legs).
    { unfold final_origin. rewrite last_cons. destruct (last legs); [done|].
      done. }
    exists (l :: legs). rewrite Hfin. repeat split; try done.
    + cbn. by rewrite Hd.
    + by rewrite Hn.
    + constructor; [|done]. exact Hp.
Qed.

Lemma run_tiers_spec (ps : list Z) (b0 b1 b2 b3 : list cell) (start : cell) :
  in_grid grid start = true → Forall (λ p, 0 ≤ p ≤ 3) ps →
  ∃ legs final,
    run_tiers grid ps [b0; b1; b2; b3] start = Ok (legs, final) ∧
    in_grid grid final = true ∧
    match sorted_addresses ps [b0; b1; b2; b3] with
    | Ok listing => (λ l, (leg_dest l, leg_priority l)) <$> legs = listing
    | Fault => False
    end ∧
    chained start legs ∧ Forall leg_searched legs.
Proof.
  intros Hin Hps. revert start Hin.
  induction Hps as [|p ps Hp _ IH]; intros start Hin.
  - exists [], start. by repeat split.
  - cbn [run_tiers sorted_addresses].
    assert (∃ b, vec_at [b0; b1; b2; b3] p = Ok b) as [b ->].
    { assert (p = 0 ∨ p = 1 ∨ p = 2 ∨ p = 3) as [-> | [-> | [-> | ->]]] by lia;
        by eexists. }
    cbn [mbind outcome_bind].
    destruct (run_bucket_spec p b start Hin) as (l1 & -> & Hin1 & Hd1 & Hc1 & Hs1).
    cbn [mbind outcome_bind fst snd].
    destruct (IH _ Hin1) as (l2 & final & -> & Hin2 & Hd2 & Hc2 & Hs2).
    cbn [mbind outcome_bind fst snd].
    destruct (sorted_addresses ps [b0; b1; b2; b3]) as [rest|]; [|done].
    cbn [mbind outcome_bind].
    exists (l1 ++ l2), final. repeat split; try done.
    + by rewrite fmap_app, Hd1, Hd2.
    + by apply chained_app.
    + by apply Forall_app.
Qed.

(** [main] on destinations whose priorities index the four buckets. *)
Lemma main_spec (start : cell) (ds : list Destination) :
  in_grid grid start = true → priorities_in_range ds →
  ∃ legs,
    main grid start ds = Ok (selected ds, legs) ∧
    (λ l, (leg_dest l, leg_priority l)) <$> legs = selected ds ∧
    chained start legs ∧ Forall leg_searched legs.
Proof.
  intros Hin Hr. unfold main, make_buckets.
  change (replicate 4 []) with [@nil cell; []; []; []].
  rewrite (fill_buckets_spec ds [] [] [] [] Hr). cbn [app mbind outcome_bind].
  rewrite sorted_addresses_tiers, !tier_of_pairs. cbn [mbind outcome_bind].
  destruct (run_tiers_spec tiers (tier_of 0 ds).*1 (tier_of 1 ds).*1
              (tier_of 2 ds).*1 (tier_of 3 ds).*1 start Hin)
    as (legs & final & -> & _ & Hd & Hc & Hs).
  { unfold tiers. repeat constructor; lia. }
  rewrite sorted_addresses_tiers, !tier_of_pairs in Hd.
  cbn [mbind outcome_bind fst snd]. by exists legs.
Qed.

End PlannerFacts.

(** ** The planner: tier order, origin chaining, bucket indices, omissions *)

(** Destinations of tiers 2, 1, 3, 1 (and one of priority 0) on the grid
    of the example scenario. *)
Definition sample_destinations : list Destination :=
  [((4, 4), 2); ((0, 1), 1); ((0, 4), 3); ((2, 2), 1); ((3, 3), 0)].

(** The example scenario: two destinations on [wall_grid] from the start
    (0,0).  The first leg goes through the gap (4,2) in 8 steps; the second
    leg starts at (4,4) and goes up column 4 in 4 steps. *)
Example wall_scenario :
  match @main fifo_pq wall_grid (0, 0) [((4, 4), 1); ((0, 4), 2)] with
  | Ok (_, legs) => (λ l, (leg_origin l, leg_dest l, steps (leg_path l))) <$> legs
  | Fault => []
  end = [((0, 0), (4, 4), 8); ((4, 4), (0, 4), 4)].
Proof. by vm_compute. Qed.

(** C4 (tier ordering).  For a well-formed grid, a start cell in bounds
    and destinations whose priorities index the buckets, [main] prints the
    listing and searches the destinations in the same order: those of
    priority 1 in their input order, then those of priority 2 in their
    input order, then those of priority 3 in their input order. *)
Theorem report_tier_order `{PriorityQueue} (grid : Grid) (start : cell)
    (ds : list Destination) :
  wf_grid grid = true → in_grid grid start = true → priorities_in_range ds →
  ∃ listing legs,
    main grid start ds = Ok (listing, legs) ∧
    listing = filter (λ d, d.2 = 1) ds ++ filter (λ d, d.2 = 2) ds ++
              filter (λ d, d.2 = 3) ds ∧
    (λ l, (leg_dest l, leg_priority l)) <$> legs = listing.
Proof.
  intros Hwf Hin Hr.
  destruct (main_spec grid Hwf start ds Hin Hr) as (legs & Hm & Hd & _).
  by exists (selected ds), legs.
Qed.

Lemma report_tier_order_witness :
  ∃ listing legs,
    @main fifo_pq wall_grid (0, 0) sample_destinations = Ok (listing, legs) ∧
    listing = filter (λ d, d.2 = 1) sample_destinations ++
              filter (λ d, d.2 = 2) sample_destinations ++
              filter (λ d, d.2 = 3) sample_destinations ∧
    (λ l, (leg_dest l, leg_priority l)) <$> legs = listing.
Proof.
  apply (@report_tier_order fifo_pq wall_grid (0, 0) sample_destinations).
  - reflexivity.
  - reflexivity.
  - unfold priorities_in_range, sample_destinations. repeat constructor; cbn; lia.
Defined.

(** C5 (origin chaining).  Under the same conditions every destination of
    priority 1, 2 or 3 is searched, whatever the searches before it
    returned, each leg with the path [aStar] returned for its origin and
    destination; the first leg starts at the start cell, and the leg after a
    leg [l] starts at the destination of [l] when the path of [l] is
    non-empty and at the origin of [l] when it is empty. *)
Theorem origin_chaining `{PriorityQueue} (grid : Grid) (start : cell)
    (ds : list Destination) :
  wf_grid grid = true → in_grid grid start = true → priorities_in_range ds →
  ∃ legs,
    main grid start ds = Ok (selected ds, legs) ∧
    (λ l, (leg_dest l, leg_priority l)) <$> legs = selected ds ∧
    Forall (λ l, aStar grid (leg_origin l).1 (leg_origin l).2
                   (leg_dest l).1 (leg_dest l).2 = Ok (leg_path l)) legs ∧
    (∀ l, legs !! 0%nat = Some l → leg_origin l = start) ∧
    (∀ i l l', legs !! i = Some l → legs !! S i = Some l' →
       leg_origin l' = match leg_path l with
                       | [] => leg_origin l
                       | _ => leg_dest l
                       end).
Proof.
  intros Hwf Hin Hr.
  destruct (main_spec grid Hwf start ds Hin Hr) as (legs & Hm & Hd & Hc & Hs).
  exists legs. destruct (chained_lookup _ _ Hc) as [H0 HS].
  repeat split; try done.
  intros i l l' Hl Hl'. rewrite (HS i l l' Hl Hl').
  unfold next_origin, leg_found. by destruct (leg_path l).
Qed.

Lemma origin_chaining_witness :
  ∃ legs,
    @main fifo_pq wall_grid (0, 0) sample_destinations
    = Ok (selected sample_destinations, legs) ∧
    (λ l, (leg_dest l, leg_priority l)) <$> legs = selected sample_destinations ∧
    Forall (λ l, @aStar fifo_pq wall_grid (leg_origin l).1 (leg_origin l).2
                   (leg_dest l).1 (leg_dest l).2 = Ok (leg_path l)) legs ∧
    (∀ l, legs !! 0%nat = Some l → leg_origin l = (0, 0)) ∧
    (∀ i l l', legs !! i = Some l → legs !! S i = Some l' →
       leg_origin l' = match leg_path l with
                       | [] => leg_origin l
                       | _ => leg_dest l
                       end).
Proof.
  apply (@origin_chaining fifo_pq wall_grid (0, 0) sample_destinations).
  - reflexivity.
  - reflexivity.
  - unfold priorities_in_range, sample_destinations. repeat constructor; cbn; lia.
Defined.

(** C9 (bucket indices).  [buckets] has four elements and line 134
    indexes it with the priority unchecked: when every priority lies in
    0..3 all the accesses are inside the vector and the four buckets are
    built; when some priority lies outside 0..3 an access falls outside the
    vector, which is undefined behaviour, also of [main]. *)
Theorem bucket_index_safety `{PriorityQueue} (grid : Grid) (start : cell)
    (ds : list Destination) :
  (Forall (λ d, 0 ≤ d.2 ≤ 3) ds →
   ∃ buckets, make_buckets ds = Ok buckets ∧ length buckets = 4%nat) ∧
  (¬ Forall (λ d, 0 ≤ d.2 ≤ 3) ds →
   make_buckets ds = Fault ∧ main grid start ds = Fault).
Proof.
  split.
  - intros Hr. unfold make_buckets.
    change (replicate 4 []) with [@nil cell; []; []; []].
    rewrite (fill_buckets_spec ds [] [] [] [] Hr). eauto.
  - intros Hr. assert (Hf : make_buckets ds = Fault)
      by (by apply fill_buckets_fault).
    split; [done|]. unfold main. by rewrite Hf.
Qed.

(** C10 (omissions).  Under the conditions of C4 a destination with its
    priority is in the listing, and is searched in the report, exactly when
    it is in the input with a priority of 1, 2 or 3; the destinations of
    priority 0 are put into bucket 0, which neither loop reads. *)
Theorem report_membership `{PriorityQueue} (grid : Grid) (start : cell)
    (ds : list Destination) :
  wf_grid grid = true → in_grid grid start = true → priorities_in_range ds →
  ∃ listing legs,
    main grid start ds = Ok (listing, legs) ∧
    (∀ d p, (d, p) ∈ listing ↔ (d, p) ∈ ds ∧ 1 ≤ p ≤ 3) ∧
    (∀ d p, (∃ l, l ∈ legs ∧ leg_dest l = d ∧ leg_priority l = p) ↔
            (d, p) ∈ ds ∧ 1 ≤ p ≤ 3) ∧
    (∃ b1 b2 b3,
       make_buckets ds = Ok [(filter (λ d, d.2 = 0) ds).*1; b1; b2; b3]) ∧
    (∀ d, (d, 0) ∉ listing) ∧ (∀ l, l ∈ legs → leg_priority l ≠ 0).
Proof.
  intros Hwf Hin Hr.
  destruct (main_spec grid Hwf start ds Hin Hr) as (legs & Hm & Hd & _).
  exists (selected ds), legs.
  assert (Hsel : ∀ d p, (d, p) ∈ selected ds ↔ (d, p) ∈ ds ∧ 1 ≤ p ≤ 3).
  { intros d p. unfold selected, tier_of.
    rewrite !elem_of_app, !list_elem_of_filter. cbn. split.
    - intros [[-> ?]|[[-> ?]|[-> ?]]]; split; (done || lia).
    - intros [Hin' Hp].
      assert (p = 1 ∨ p = 2 ∨ p = 3) as [-> | [-> | ->]] by lia; auto. }
  assert (Hlegs : ∀ d p, (∃ l, l ∈ legs ∧ leg_dest l = d ∧ leg_priority l = p) ↔
                         (d, p) ∈ selected ds).
  { intros d p. rewrite <- Hd, list_elem_of_fmap. split.
    - intros (l & Hl & <- & <-). eauto.
    - intros (l & [= -> ->] & Hl). eauto. }
  split; [done|]. split; [exact Hsel|]. split.
  { intros d p. rewrite Hlegs. apply Hsel. }
  split.
  { unfold make_buckets. change (replicate 4 []) with [@nil cell; []; []; []].
    rewrite (fill_buckets_spec ds [] [] [] [] Hr). eauto. }
  split.
  - intros d H'%Hsel. lia.
  - intros l Hl Hp.
    assert ((leg_dest l, 0) ∈ selected ds) as H'%Hsel by (apply Hlegs; eauto).
    lia.
Qed.

Lemma report_membership_witness :
  ∃ listing legs,
    @main lifo_pq wall_grid (0, 0) sample_destinations = Ok (listing, legs) ∧
    (∀ d p, (d, p) ∈ listing ↔ (d, p) ∈ sample_destinations ∧ 1 ≤ p ≤ 3) ∧
    (∀ d p, (∃ l, l ∈ legs ∧ leg_dest l = d ∧ leg_priority l = p) ↔
            (d, p) ∈ sample_destinations ∧ 1 ≤ p ≤ 3) ∧
    (∃ b1 b2 b3,
       make_buckets sample_destinations =
       Ok [(filter (λ d, d.2 = 0) sample_destinations).*1; b1; b2; b3]) ∧
    (∀ d, (d, 0) ∉ listing) ∧ (∀ l, l ∈ legs → leg_priority l ≠ 0).
Proof.
  apply (@report_membership lifo_pq wall_grid (0, 0) sample_destinations).
  - reflexivity.
  - reflexivity.
  - unfold priorities_in_range, sample_destinations. repeat constructor; cbn; lia.
Defined.

(** ** Popping a node whose cell is closed *)

(** The state after [k] iterations of the while loop, if the loop is still
    running then. *)
Fixpoint state_after `{PriorityQueue} (grid : Grid) (target : cell) (k : nat)
    (st : search_state) : option search_state :=
  match k with
  | O => Some st
  | S k' =>
      match step grid (grid_rows grid) (grid_cols grid) target.1 target.2 st with
      | Continue st' => state_after grid target k' st'
      | Finished _ => None
      end
  end.

(** A target enclosed by obstacles. *)
Definition enclosed_grid : Grid :=
  [[0; 1; 0; 0];
   [1; 0; 0; 0];
   [0; 0; 0; 0]].

(** [n] may be the node that [top] returns: no node of [items] has a
    smaller [f]. *)
Definition is_least (n : Node) (items : list Node) : bool :=
  forallb (λ m, node_f n <=? node_f m) items.

(** A search through the orders in which a frontier may return nodes of
    equal total cost: [true] when along every order, within [fuel]
    iterations from the closed set [vis] and the frontier nodes [items], the
    search pops a node whose cell is closed and pushes a node for one of its
    neighbours. *)
Fixpoint every_order_revisits (grid : Grid) (target : cell) (fuel : nat)
    (vis : list (list bool)) (items : list Node) : bool :=
  match fuel with
  | O => false
  | S fuel' =>
      match items with
      | [] => false
      | _ =>
          forallb
            (λ i,
               match items !! i with
               | None => true
               | Some n =>
                   if is_least n items then
                     if at_target target n then false
                     else
                       match set2 vis (node_x n) (node_y n) true with
                       | Fault => false
                       | Ok vis' =>
                           let new := successors grid target vis' n in
                           (seen vis (node_cell n) &&
                              match new with [] => false | _ => true end)
                           || every_order_revisits grid target fuel' vis'
                                (new ++ delete i items)
                       end
                   else true
               end)
            (seq 0 (length items))
      end
  end.

Section ClosedPop.
Context `{PQ : PriorityQueue}.
Variable grid : Grid.
Hypothesis Hwf : wf_grid grid = true.
Variables origin target : cell.

Lemma state_after_base (k : nat) (st0 st : search_state) :
  base_inv grid origin target st0 →
  state_after grid target k st0 = Some st → base_inv grid origin target st.
Proof.
  revert st0. induction k as [|k IH]; intros st0 Hb; cbn.
  - by intros [= <-].
  - destruct (step _ _ _ _ _ st0) as [r|st'] eqn:Hstep; [done|].
    apply IH. by eapply base_step.
Qed.

(** The iteration that pops a node of a closed cell. *)
Lemma step_of_closed_pop (st : search_state) (n : Node) (q : pq) :
  base_inv grid origin target st →
  pq_pop (frontier st) = Some (n, q) →
  node_cell n ≠ target →
  seen (visited st) (node_cell n) = true →
  ∃ q',
    step grid (grid_rows grid) (grid_cols grid) target.1 target.2 st
    = Continue (mkState (visited st) q') ∧
    pq_items q' ≡ₚ successors grid target (visited st) n ++ pq_items q.
Proof.
  intros Hb Hpop Hne Hseen.
  pose proof (step_cases grid Hwf target st (base_shape _ _ _ _ Hb)
                (base_in_grid _ _ _ _ Hb)) as Hc.
  rewrite Hpop in Hc.
  destruct (at_target target n) eqn:Hat; [by apply at_target_true in Hat|].
  destruct Hc as (vis' & q' & Hstep & Hset & Hq').
  assert (vis' = visited st) as ->.
  { destruct (open_cells_set2 _ _ _ _ Hset) as [[_ ?]|[Hopen _]]; [done|].
    unfold seen, visited_at in Hseen. cbn in Hseen. by rewrite Hopen in Hseen. }
  by exists q'.
Qed.

Lemma every_order_revisits_sound (fuel : nat) (st : search_state)
    (items : list Node) :
  base_inv grid origin target st →
  pq_items (frontier st) ≡ₚ items →
  every_order_revisits grid target fuel (visited st) items = true →
  ∃ k st' n q,
    state_after grid target k st = Some st' ∧
    pq_pop (frontier st') = Some (n, q) ∧
    node_cell n ≠ target ∧
    seen (visited st') (node_cell n) = true ∧
    successors grid target (visited st') n ≠ [].
Proof.
  revert st items. induction fuel as [|fuel IH]; intros st items Hb Hperm Hex;
    [done|].
  cbn [every_order_revisits] in Hex.
  destruct (pq_pop (frontier st)) as [[n q]|] eqn:Hpop.
  2: { apply pq_pop_none in Hpop. rewrite Hpop in Hperm.
       apply Permutation_nil_l in Hperm as <-. done. }
  pose proof (pq_pop_some _ _ _ Hpop) as [Hp Hmin].
  assert (Hn : n ∈ items) by (rewrite <- Hperm, Hp; by left).
  apply list_elem_of_lookup_1 in Hn as [i Hi].
  assert (Hbranch :
    (if is_least n items then
       if at_target target n then false
       else
         match set2 (visited st) (node_x n) (node_y n) true with
         | Fault => false
         | Ok vis' =>
             let new := successors grid target vis' n in
             (seen (visited st) (node_cell n) &&
                match new with [] => false | _ => true end)
             || every_order_revisits grid target fuel vis' (new ++ delete i items)
         end
     else true) = true).
  { destruct items as [|m items']; [done|].
    rewrite forallb_forall in Hex.
    specialize (Hex i). rewrite Hi in Hex. apply Hex.
    apply list_elem_of_In, elem_of_seq. apply lookup_lt_Some in Hi. lia. }
  assert (is_least n items = true) as Hleast.
  { unfold is_least. apply forallb_forall. intros m Hm%list_elem_of_In.
    rewrite Forall_forall in Hmin. apply Z.leb_le, Hmin. by rewrite Hperm. }
  rewrite Hleast in Hbranch.
  pose proof (step_cases grid Hwf target st (base_shape _ _ _ _ Hb)
                (base_in_grid _ _ _ _ Hb)) as Hc.
  rewrite Hpop in Hc.
  destruct (at_target target n) eqn:Hat; [done|].
  assert (Hne : node_cell n ≠ target).
  { intros E. apply at_target_true in E. congruence. }
  destruct Hc as (vis' & q' & Hstep & Hset & Hq').
  rewrite Hset in Hbranch. cbn zeta in Hbranch.
  apply orb_true_iff in Hbranch as [[Hseen Hnew]%andb_true_iff|Hrec].
  - exists 0%nat, st, n, q. repeat split; try done.
    destruct (step_of_closed_pop st n q Hb Hpop Hne Hseen) as (q'' & Hstep' & _).
    rewrite Hstep in Hstep'. injection Hstep' as -> _.
    by destruct (successors grid target (visited st) n).
  - assert (Hb' : base_inv grid origin target (mkState vis' q'))
      by (by eapply base_step).
    assert (Hperm' : pq_items q' ≡ₚ
              successors grid target vis' n ++ delete i items).
    { rewrite Hq'. apply Permutation_app_head.
      apply (Permutation_cons_inv (a := n)).
      rewrite <- Hp, Hperm. by apply delete_Permutation. }
    destruct (IH (mkState vis' q') _ Hb' Hperm' Hrec)
      as (k & st' & n' & q0 & Hk & Hrest).
    exists (S k), st', n', q0. split; [|done]. cbn. by rewrite Hstep.
Qed.

End ClosedPop.

(** On [enclosed_grid], searching from (1,1) for the enclosed target
    (0,0): whatever the frontier does with nodes of equal total cost, some
    iteration pops a node whose cell is closed and pushes a node for one of
    its neighbours. *)
Lemma enclosed_revisit `{PriorityQueue} :
  ∃ k st n q,
    state_after enclosed_grid (0, 0) k (first_state enclosed_grid (1, 1) (0, 0))
    = Some st ∧
    pq_pop (frontier st) = Some (n, q) ∧
    node_cell n ≠ (0, 0) ∧
    seen (visited st) (node_cell n) = true ∧
    successors enclosed_grid (0, 0) (visited st) n ≠ [].
Proof.
  apply (every_order_revisits_sound enclosed_grid eq_refl (1, 1) (0, 0) 12
           (first_state enclosed_grid (1, 1) (0, 0))
           [mkNode 1 1 0 (heuristic 1 1 0 0) None]).
  - by apply first_state_base.
  - by rewrite first_state_items.
  - by vm_compute.
Qed.

(** C6, as the claim states it: in every state that the loop of a search
    reaches, a popped node whose cell is already closed is dropped and the
    search goes on with the rest of the frontier, nothing pushed. *)
Definition closed_nodes_skipped : Prop :=
  ∀ (Q : PriorityQueue) (grid : Grid) (origin target : cell) (k : nat)
    (st : search_state) (n : Node) (q : pq),
    wf_grid grid = true → in_grid grid origin = true →
    state_after grid target k (first_state grid origin target) = Some st →
    pq_pop (frontier st) = Some (n, q) →
    seen (visited st) (node_cell n) = true →
    step grid (grid_rows grid) (grid_cols grid) target.1 target.2 st
    = Continue (mkState (visited st) q).

(** C6, counterexample.  On [enclosed_grid], searching from (1,1) for the
    enclosed target (0,0), cell (2,2) is pushed twice, from (2,1) and from
    (1,2), before it is closed.  The pop of its first node closes it and
    pushes (2,3); the pop of its second node pushes (2,3) once more, so the
    frontier is not the rest that the pop left.  This happens under every
    order of nodes of equal total cost ([enclosed_revisit]). *)
Lemma closed_nodes_skipped_counterexample : ¬ closed_nodes_skipped.
Proof.
  intros Hskip.
  destruct (@enclosed_revisit fifo_pq) as (k & st & n & q & Hst & Hpop & Hne & Hseen & Hnew).
  specialize (Hskip fifo_pq enclosed_grid (1, 1) (0, 0) k st n q
                eq_refl eq_refl Hst Hpop Hseen).
  destruct (step_of_closed_pop enclosed_grid eq_refl (1, 1) (0, 0) st n q)
    as (q' & Hstep & Hperm); try done.
  { eapply state_after_base; [done| |exact Hst]. by apply first_state_base. }
  rewrite Hstep in Hskip. injection Hskip as ->.
  apply Permutation_length in Hperm. rewrite length_app in Hperm.
  destruct (successors enclosed_grid (0, 0) (visited st) n); [done|].
  cbn in Hperm. lia.
Qed.

(** The run with the frontier [fifo_pq]: the state after six iterations,
    the node that the seventh iteration pops and the rest of the frontier. *)
Definition revisit_state : @search_state fifo_pq :=
  Eval vm_compute in
    default (@first_state fifo_pq enclosed_grid (1, 1) (0, 0))
      (@state_after fifo_pq enclosed_grid (0, 0) 6
         (@first_state fifo_pq enclosed_grid (1, 1) (0, 0))).

Definition revisit_node : Node :=
  Eval vm_compute in
    default (mkNode 0 0 0 0 None)
      (fst <$> @pq_pop fifo_pq (frontier revisit_state)).

Definition revisit_rest : list Node :=
  Eval vm_compute in
    default [] (snd <$> @pq_pop fifo_pq (frontier revisit_state)).

(** The cells closed after six iterations, the node popped next and what
    its expansion pushes. *)
Example revisit_facts :
  visited revisit_state =
    [[false; false; true; false];
     [false; true; true; false];
     [true; true; true; false]] ∧
  node_cell revisit_node = (2, 2) ∧ node_g revisit_node = 2 ∧
  node_cell <$> successors enclosed_grid (0, 0) (visited revisit_state)
                  revisit_node = [(2, 3)].
Proof. by vm_compute. Qed.

(** C6, amended.  The search does not look up the closed set when it pops
    a node.  In every state that the loop reaches, a popped node that is not
    at the target and whose cell is already closed is expanded like any
    other: the closed set stays as it is, and the frontier becomes the rest
    of the frontier with one new node for every adjacent cell that is in
    bounds, not an obstacle and not closed. *)
Theorem closed_node_expanded `{PriorityQueue} (grid : Grid) (origin target : cell)
    (k : nat) (st : search_state) (n : Node) (q : pq) :
  wf_grid grid = true → in_grid grid origin = true →
  state_after grid target k (first_state grid origin target) = Some st →
  pq_pop (frontier st) = Some (n, q) →
  node_cell n ≠ target →
  seen (visited st) (node_cell n) = true →
  ∃ q',
    step grid (grid_rows grid) (grid_cols grid) target.1 target.2 st
    = Continue (mkState (visited st) q') ∧
    pq_items q' ≡ₚ successors grid target (visited st) n ++ pq_items q ∧
    ∀ m, m ∈ successors grid target (visited st) n ↔
         ∃ w, adjacent (node_cell n) w = true ∧ free grid w = true ∧
              seen (visited st) w = false ∧ m = child target n w.
Proof.
  intros Hwf Hin Hst Hpop Hne Hseen.
  pose proof (state_after_base grid Hwf origin target k _ st
                (first_state_base grid origin target Hin) Hst) as Hb.
  destruct (step_of_closed_pop grid Hwf origin target st n q Hb Hpop Hne Hseen)
    as (q' & Hstep & Hperm).
  exists q'. split; [done|]. split; [done|].
  intros m. apply elem_of_successors.
Qed.

Lemma closed_node_expanded_witness :
  ∃ q',
    @step fifo_pq enclosed_grid 3 4 0 0 revisit_state
    = Continue (mkState (visited revisit_state) q') ∧
    pq_items q' ≡ₚ
      successors enclosed_grid (0, 0) (visited revisit_state) revisit_node
      ++ revisit_rest ∧
    ∀ m, m ∈ successors enclosed_grid (0, 0) (visited revisit_state)
               revisit_node ↔
         ∃ w, adjacent (node_cell revisit_node) w = true ∧
              free enclosed_grid w = true ∧
              seen (visited revisit_state) w = false ∧
              m = child (0, 0) revisit_node w.
Proof.
  apply (@closed_node_expanded fifo_pq enclosed_grid (1, 1) (0, 0) 6%nat
           revisit_state revisit_node revisit_rest).
  - reflexivity.
  - reflexivity.
  - reflexivity.
  - reflexivity.
  - discriminate.
  - reflexivity.
Defined.

(** ** Cells outside the grid *)

(** C7, as the claim states it: a search whose origin or target lies
    outside the grid does not return a path, empty or not. *)
Definition out_of_bounds_fails_fast : Prop :=
  ∀ (Q : PriorityQueue) (grid : Grid) (origin target : cell),
    wf_grid grid = true →
    in_grid grid origin = false ∨ in_grid grid target = false →
    ∀ p, @aStar Q grid origin.1 origin.2 target.1 target.2 ≠ Ok p.

(** C7, counterexample.  On the 5 x 5 grid of the example scenario the
    search from (0,0) for the target (7,7), which is outside the grid,
    returns the empty path: the result of an unreachable target. *)
Lemma out_of_bounds_fails_fast_counterexample : ¬ out_of_bounds_fails_fast.
Proof.
  intros Hfail.
  apply (Hfail fifo_pq wall_grid (0, 0) (7, 7) eq_refl (or_intror eq_refl) []).
  by vm_compute.
Qed.

(** C7, amended.  The search has no error for cells outside the grid.  On
    a well-formed grid, for an origin in bounds and a target outside the
    grid, [aStar] returns the empty path, as it does for a target that
    cannot be reached; the planner reports that destination as a leg with
    the empty path, leaves the start point where it was and goes on with the
    destinations that follow. *)
Theorem out_of_bounds_target `{PriorityQueue} (grid : Grid) (origin target : cell)
    (priority : Z) (rest : list cell) :
  wf_grid grid = true → in_grid grid origin = true → in_grid grid target = false →
  aStar grid origin.1 origin.2 target.1 target.2 = Ok [] ∧
  run_bucket grid priority (target :: rest) origin =
  (r ← run_bucket grid priority rest origin;
   Ok (mkLeg origin target priority [] :: r.1, r.2)).
Proof.
  intros Hwf Hin Hout.
  assert (Hempty : aStar grid origin.1 origin.2 target.1 target.2 = Ok []).
  { destruct (aStar_returns grid Hwf origin target Hin) as (p & Hp & [->|Hr]); [done|].
    apply (route_target_in_grid grid origin target p Hin) in Hr. congruence. }
  split; [done|]. cbn [run_bucket]. rewrite Hempty. cbn [mbind outcome_bind].
  by destruct target.
Qed.

Lemma out_of_bounds_target_witness :
  @aStar lifo_pq wall_grid 4 4 5 0 = Ok [] ∧
  @run_bucket lifo_pq wall_grid 1 [(5, 0); (0, 4)] (4, 4) =
  (r ← @run_bucket lifo_pq wall_grid 1 [(0, 4)] (4, 4);
   Ok (mkLeg (4, 4) (5, 0) 1 [] :: r.1, r.2)).
Proof.
  apply (@out_of_bounds_target lifo_pq wall_grid (4, 4) (5, 0) 1 [(0, 4)]).
  - reflexivity.
  - reflexivity.
  - reflexivity.
Defined.

(** * Further properties of the search *)

(** ** The heuristic *)

Lemma manhattan_triangle (a b c : cell) :
  adjacent b c = true → manhattan a c ≤ manhattan a b + 1.
Proof. unfold adjacent, manhattan. intros H%Z.eqb_eq. lia. Qed.

Lemma route_manhattan (grid : Grid) (origin c : cell) (p : list cell) :
  route grid origin c p → manhattan origin c ≤ steps p.
Proof.
  induction 1 as [|c p d Hr IH Ha Hf].
  - unfold manhattan, steps. cbn. lia.
  - rewrite steps_snoc. pose proof (manhattan_triangle origin c d Ha). lia.
Qed.

(** X1.  On a grid whose size fits the [int] arithmetic, the value of
    [heuristic] at a cell of the grid never exceeds the number of steps of
    any route from that cell to the target (it is admissible), it is 0 at
    the target, and it differs by at most 1 between adjacent cells of the
    grid (it is consistent). *)
Theorem heuristic_admissible (grid : Grid) (c target : cell) (p : list cell) :
  grid_fits grid = true → in_grid grid c = true → in_grid grid target = true →
  (route grid c target p → heuristic c.1 c.2 target.1 target.2 ≤ steps p) ∧
  heuristic target.1 target.2 target.1 target.2 = 0 ∧
  (∀ d, in_grid grid d = true → adjacent c d = true →
        Z.abs (heuristic c.1 c.2 target.1 target.2 -
               heuristic d.1 d.2 target.1 target.2) ≤ 1).
Proof.
  intros Hfits Hc Ht. split; [|split].
  - intros Hr. rewrite (heuristic_manhattan grid target Hfits Ht c Hc).
    by eapply route_manhattan.
  - rewrite (heuristic_manhattan grid target Hfits Ht target Ht).
    unfold manhattan. lia.
  - intros d Hd Ha.
    rewrite (heuristic_manhattan grid target Hfits Ht c Hc),
      (heuristic_manhattan grid target Hfits Ht d Hd).
    unfold adjacent in Ha. apply Z.eqb_eq in Ha. unfold manhattan. lia.
Qed.

Lemma heuristic_admissible_witness :
  (route wall_grid (0, 0) (0, 1) [(0, 0); (0, 1)] → heuristic 0 0 0 1 ≤ 1) ∧
  heuristic 0 1 0 1 = 0 ∧
  (∀ d, in_grid wall_grid d = true → adjacent (0, 0) d = true →
        Z.abs (heuristic 0 0 0 1 - heuristic d.1 d.2 0 1) ≤ 1).
Proof.
  apply (heuristic_admissible wall_grid (0, 0) (0, 1) [(0, 0); (0, 1)]).
  - reflexivity.
  - reflexivity.
  - reflexivity.
Defined.

(** ** The returned path does not repeat a cell *)

Section SimplePath.
Context `{PQ : PriorityQueue}.
Variable grid : Grid.
Hypothesis Hwf : wf_grid grid = true.
Variables origin target : cell.

(** The back links of a frontier node do not repeat a cell, and all the
    cells behind the node are closed. *)
Definition simple_node (vis : list (list bool)) (m : Node) : Prop :=
  NoDup (back_links m) ∧ Forall (λ c, seen vis c = true) (tail (back_links m)).

Definition simple_inv (st : search_state) : Prop :=
  Forall (simple_node (visited st)) (pq_items (frontier st)).

Lemma simple_step (st st' : search_state) :
  base_inv grid origin target st → simple_inv st →
  step grid (grid_rows grid) (grid_cols grid) target.1 target.2 st = Continue st' →
  simple_inv st'.
Proof.
  intros Hb Hs Hstep.
  pose proof (step_cases grid Hwf target st (base_shape _ _ _ _ Hb)
                (base_in_grid _ _ _ _ Hb)) as Hc.
  destruct (pq_pop (frontier st)) as [[n q]|] eqn:Hpop; [|congruence].
  destruct (at_target target n) eqn:Hat; [congruence|].
  destruct Hc as (vis' & q' & Hst & Hset & Hq'). rewrite Hst in Hstep.
  injection Hstep as <-.
  pose proof (pq_pop_some _ _ _ Hpop) as [Hperm _].
  unfold simple_inv in *. rewrite Hperm in Hs.
  apply Forall_cons in Hs as [[Hnd Hseen] Hq]. cbn.
  assert (Hall : Forall (λ c, seen vis' c = true) (back_links n)).
  { rewrite back_links_head. constructor.
    - rewrite (seen_set2 _ _ _ _ _ Hset). by rewrite decide_True.
    - eapply Forall_impl; [exact Hseen|]. intros c Hc. cbn.
      rewrite (seen_set2 _ _ _ _ _ Hset). by case_decide. }
  rewrite Hq'. apply Forall_app. split.
  - apply Forall_forall. intros m (w & Ha & Hf & Hw & ->)%elem_of_successors.
    destruct w as [wx wy]. unfold simple_node.
    change (back_links (child target n (wx, wy))) with ((wx, wy) :: back_links n).
    split; [|done]. constructor; [|done]. intros Hin.
    rewrite Forall_forall in Hall. apply Hall in Hin. congruence.
  - eapply Forall_impl; [exact Hq|]. intros m [Hm1 Hm2]. split; [done|].
    eapply Forall_impl; [exact Hm2|]. intros c Hc. cbn.
    rewrite (seen_set2 _ _ _ _ _ Hset). by case_decide.
Qed.

Lemma simple_finished (st : search_state) (r : outcome (list cell)) :
  base_inv grid origin target st → simple_inv st →
  step grid (grid_rows grid) (grid_cols grid) target.1 target.2 st = Finished r →
  ∃ p, r = Ok p ∧ NoDup p.
Proof.
  intros Hb Hs Hstep.
  pose proof (step_cases grid Hwf target st (base_shape _ _ _ _ Hb)
                (base_in_grid _ _ _ _ Hb)) as Hc.
  destruct (pq_pop (frontier st)) as [[n q]|] eqn:Hpop.
  - destruct (at_target target n) eqn:Hat.
    + rewrite Hc in Hstep. injection Hstep as <-. eexists. split; [done|].
      pose proof (pq_pop_some _ _ _ Hpop) as [Hperm _].
      unfold simple_inv in Hs. rewrite Hperm in Hs.
      apply Forall_cons in Hs as [[Hnd _] _]. by rewrite reverse_Permutation.
    + destruct Hc as (? & ? & Hst & _). congruence.
  - rewrite Hc in Hstep. injection Hstep as <-. exists []. split; [done|].
    constructor.
Qed.

Lemma aStar_NoDup (p : list cell) :
  in_grid grid origin = true →
  aStar grid origin.1 origin.2 target.1 target.2 = Ok p → NoDup p.
Proof.
  intros Hin. rewrite aStar_first_state by (by apply wf_grid_sized).
  intros Hp.
  assert (∃ p', search_loop grid (grid_rows grid) (grid_cols grid) target.1 target.2
                  (first_state grid origin target) = Ok p' ∧ NoDup p')
    as (p' & Hp' & Hnd).
  { apply (search_loop_rule grid target
             (λ st, base_inv grid origin target st ∧ simple_inv st)).
    - intros st st' [Hb Hs] Hstep. split; [by eapply base_step|by eapply simple_step].
    - intros st r [Hb Hs]. by eapply simple_finished.
    - split; [by apply first_state_base|].
      unfold simple_inv. rewrite first_state_items.
      constructor; [|constructor]. split; cbn; [apply NoDup_singleton|constructor]. }
  congruence.
Qed.

End SimplePath.

(** X2.  On a well-formed grid and for an origin in bounds, the path that
    [aStar] returns visits no cell twice, whatever the order in which the
    frontier returns nodes of equal total cost and whatever the size of the
    grid. *)
Theorem aStar_path_simple `{PriorityQueue} (grid : Grid) (origin target : cell)
    (p : list cell) :
  wf_grid grid = true → in_grid grid origin = true →
  aStar grid origin.1 origin.2 target.1 target.2 = Ok p → NoDup p.
Proof. intros Hwf Hin Hp. by eapply aStar_NoDup. Qed.

Lemma aStar_path_simple_witness :
  NoDup [(0, 0); (1, 0); (2, 0); (3, 0); (4, 0); (4, 1); (4, 2); (4, 3); (4, 4)].
Proof.
  apply (@aStar_path_simple fifo_pq wall_grid (0, 0) (4, 4)).
  - reflexivity.
  - reflexivity.
  - by vm_compute.
Defined.

(** ** Targets that cannot be entered *)

(** X3.  On a well-formed grid and for an origin in bounds, a target that
    is an obstacle or lies outside the grid, and is not the origin itself,
    is never found: [aStar] returns the empty path. *)
Theorem blocked_target_unreachable `{PriorityQueue} (grid : Grid)
    (origin target : cell) :
  wf_grid grid = true → in_grid grid origin = true →
  free grid target = false → target ≠ origin →
  aStar grid origin.1 origin.2 target.1 target.2 = Ok [].
Proof.
  intros Hwf Hin Hblocked Hne.
  destruct (aStar_returns grid Hwf origin target Hin) as (p & Hp & [->|Hr]); [done|].
  inversion Hr; congruence.
Qed.

Lemma blocked_target_unreachable_witness :
  @aStar fifo_pq wall_grid 0 0 1 2 = Ok [].
Proof.
  apply (@blocked_target_unreachable fifo_pq wall_grid (0, 0) (1, 2)).
  - reflexivity.
  - reflexivity.
  - reflexivity.
  - discriminate.
Defined.

(** ** The way back *)

Lemma adjacent_sym (a b : cell) : adjacent a b = adjacent b a.
Proof.
  unfold adjacent.
  destruct (Z.eqb_spec (Z.abs (a.1 - b.1) + Z.abs (a.2 - b.2)) 1) as [E|E];
    symmetry; [apply Z.eqb_eq|apply Z.eqb_neq]; lia.
Qed.

Lemma route_end_free (grid : Grid) (origin c : cell) (p : list cell) :
  route grid origin c p → free grid origin = true → free grid c = true.
Proof. by destruct 1. Qed.

(** A step in front of a route. *)
Lemma route_cons (grid : Grid) (a b c : cell) (p : list cell) :
  route grid b c p → adjacent a b = true → free grid b = true →
  route grid a c (a :: p).
Proof.
  intros Hr Ha Hf. induction Hr as [|c p d Hr IH Ha' Hf'].
  - apply (route_step grid a a [a] b); [constructor|done..].
  - rewrite app_comm_cons. by eapply route_step.
Qed.

Lemma route_reverse (grid : Grid) (a b : cell) (p : list cell) :
  free grid a = true → route grid a b p → route grid b a (reverse p).
Proof.
  intros Hfa. induction 1 as [|c p d Hr IH Ha Hf].
  - constructor.
  - rewrite reverse_snoc. eapply route_cons; [exact IH| |].
    + by rewrite adjacent_sym.
    + by eapply route_end_free.
Qed.

(** X4.  On a well-formed grid whose size fits the [int] arithmetic,
    between two cells that are in bounds and not obstacles the search gives
    the same answer in both directions: both searches return the empty
    path, or both return a path and the two paths have the same number of
    steps. *)
Theorem aStar_symmetric `{PriorityQueue} (grid : Grid) (a b : cell) :
  wf_grid grid = true → grid_fits grid = true →
  free grid a = true → free grid b = true →
  ∃ p q,
    aStar grid a.1 a.2 b.1 b.2 = Ok p ∧
    aStar grid b.1 b.2 a.1 a.2 = Ok q ∧
    length p = length q.
Proof.
  intros Hwf Hfits Hfa Hfb.
  pose proof (free_in_grid _ _ Hfa) as Ha. pose proof (free_in_grid _ _ Hfb) as Hb.
  destruct (aStar_returns grid Hwf a b Ha) as (p & Hp & Hpr).
  destruct (aStar_returns grid Hwf b a Hb) as (q & Hq & Hqr).
  exists p, q. split; [done|]. split; [done|].
  assert (Hback : ∀ x y r, free grid x = true → free grid y = true →
            route grid x y r →
            ∀ r', aStar grid y.1 y.2 x.1 x.2 = Ok r' →
                  route grid y x r' ∧ steps r' ≤ steps r).
  { intros x y r Hfx Hfy Hr r' Hr'.
    destruct (aStar_least grid Hwf y x (reverse r) Hfits (free_in_grid _ _ Hfy)
                (route_reverse grid x y r Hfx Hr)) as (r'' & Hr'' & Hroute & Hmin).
    rewrite Hr' in Hr''. injection Hr'' as <-. split; [done|].
    rewrite <- (steps_reverse r). apply Hmin. by apply route_reverse. }
  destruct Hpr as [->|Hpr], Hqr as [->|Hqr].
  - done.
  - destruct (Hback b a q Hfb Hfa Hqr [] Hp) as [Hr _]. inversion Hr as [|? p' ? ? ? ? E].
    by destruct p'.
  - destruct (Hback a b p Hfa Hfb Hpr [] Hq) as [Hr _]. inversion Hr as [|? p' ? ? ? ? E].
    by destruct p'.
  - destruct (Hback a b p Hfa Hfb Hpr q Hq) as [_ H1].
    destruct (Hback b a q Hfb Hfa Hqr p Hp) as [_ H2].
    unfold steps in *. lia.
Qed.

Lemma aStar_symmetric_witness :
  ∃ p q,
    @aStar lifo_pq wall_grid 0 0 0 4 = Ok p ∧
    @aStar lifo_pq wall_grid 0 4 0 0 = Ok q ∧
    length p = length q.
Proof.
  apply (@aStar_symmetric lifo_pq wall_grid (0, 0) (0, 4)).
  - reflexivity.
  - reflexivity.
  - reflexivity.
  - reflexivity.
Defined.

(** ** An origin outside the grid *)

(** X5.  On a grid that has a first row, [aStar] called with an origin
    outside the grid and a target other than the origin has no defined
    result: line 99 writes [visited[startX][startY]] outside the vector. *)
Theorem outside_origin_faults `{PriorityQueue} (grid : Grid) (origin target : cell) :
  sized_grid grid = true → in_grid grid origin = false → target ≠ origin →
  aStar grid origin.1 origin.2 target.1 target.2 = Fault.
Proof.
  intros Hsized Hout Hne.
  rewrite (aStar_first_state grid origin target Hsized), search_loop_step.
  unfold step.
  pose proof (first_state_items grid origin target) as Hitems.
  destruct (pq_pop (frontier (first_state grid origin target)))
    as [[n q]|] eqn:Hpop.
  - apply pq_pop_some in Hpop as [Hperm _]. rewrite Hitems in Hperm.
    apply Permutation_singleton_l in Hperm. injection Hperm as <- _.
    cbn [node_x node_y].
    destruct ((origin.1 =? target.1) && (origin.2 =? target.2)) eqn:Hat.
    { apply andb_true_iff in Hat as [H1%Z.eqb_eq H2%Z.eqb_eq].
      destruct Hne. destruct origin, target. cbn in *. congruence. }
    cbn [visited first_state].
    destruct (set2 _ origin.1 origin.2 true) as [vis|] eqn:Hset; [|done].
    apply set2_Ok in Hset as (row & b & ? & ? & ? & ? & _).
    assert (isValid origin.1 origin.2 (grid_rows grid) (grid_cols grid) = true).
    { apply (shaped_replicate grid). exists b. apply at2_Ok. eauto 6. }
    unfold in_grid in Hout. congruence.
  - apply pq_pop_none in Hpop. by rewrite Hitems in Hpop.
Qed.

Lemma outside_origin_faults_witness :
  @aStar fifo_pq wall_grid 5 0 4 0 = Fault.
Proof.
  apply (@outside_origin_faults fifo_pq wall_grid (5, 0) (4, 0)).
  - reflexivity.
  - reflexivity.
  - discriminate.
Defined.

(** ** What the grid holds at the origin *)

Section OriginCell.
Context `{PQ : PriorityQueue}.
Variables grid grid' : Grid.
Variables ox oy v : Z.
Hypothesis Hset : set2 grid ox oy v = Ok grid'.
Variables rows cols destX destY : Z.

Lemma neighbour_node_origin (vis : list (list bool)) (n : Node) (d : Z * Z) :
  seen vis (ox, oy) = true →
  neighbour_node grid' rows cols destX destY vis n d =
  neighbour_node grid rows cols destX destY vis n d.
Proof.
  intros Hseen. unfold neighbour_node. cbn zeta.
  destruct (isValid _ _ rows cols); [|done].
  destruct (at2 vis _ _) as [[]|] eqn:Hvis; [done| |done]. cbn.
  rewrite (at2_set2 _ _ _ _ _ (int_add (node_x n) d.1) (int_add (node_y n) d.2) Hset).
  case_decide as Hd; [|done]. destruct Hd as [Hx Hy].
  unfold seen, visited_at in Hseen. cbn in Hseen.
  rewrite <- Hx, <- Hy, Hvis in Hseen. done.
Qed.

Lemma push_neighbours_origin (vis : list (list bool)) (n : Node)
    (ds : list (Z * Z)) (q : pq) :
  seen vis (ox, oy) = true →
  push_neighbours grid' rows cols destX destY vis n ds q =
  push_neighbours grid rows cols destX destY vis n ds q.
Proof.
  intros Hseen. revert q. induction ds as [|d ds IH]; intros q; [done|].
  cbn. rewrite neighbour_node_origin by done.
  destruct (neighbour_node grid _ _ _ _ vis n d) as [o|]; [|done]. cbn. apply IH.
Qed.

(** The origin is closed, or the search has not yet popped its first
    node. *)
Definition origin_inv (st : search_state) : Prop :=
  seen (visited st) (ox, oy) = true ∨
  Forall (λ m, node_cell m = (ox, oy)) (pq_items (frontier st)).

Lemma step_origin (st : search_state) :
  origin_inv st →
  step grid' rows cols destX destY st = step grid rows cols destX destY st ∧
  ∀ st', step grid rows cols destX destY st = Continue st' → origin_inv st'.
Proof.
  intros Hinv. unfold step.
  destruct (pq_pop (frontier st)) as [[n q]|] eqn:Hpop; [|done].
  destruct (_ && _); [done|].
  destruct (set2 (visited st) _ _ true) as [vis|] eqn:Hvis; [|done].
  assert (Hseen : seen vis (ox, oy) = true).
  { rewrite (seen_set2 _ _ _ _ _ Hvis). case_decide as Hd; [done|].
    destruct Hinv as [Hs|Hall]; [done|].
    apply pq_pop_some in Hpop as [Hperm _]. rewrite Hperm in Hall.
    apply Forall_cons in Hall as [Hn _]. destruct Hd. exact (eq_sym Hn). }
  rewrite push_neighbours_origin by done. split; [done|].
  destruct (push_neighbours grid _ _ _ _ vis n moves q) as [q'|]; [|done].
  intros st' [= <-]. by left.
Qed.

Lemma search_loop_origin (st : search_state) :
  origin_inv st →
  search_loop grid' rows cols destX destY st =
  search_loop grid rows cols destX destY st.
Proof.
  apply (search_loop_elim grid rows cols destX destY
           (λ st r, origin_inv st → search_loop grid' rows cols destX destY st = r)).
  - intros st0 r e _ Hinv. destruct (step_origin st0 Hinv) as [Heq _].
    by rewrite search_loop_step, Heq, e.
  - intros st0 st' Hs IH _ Hinv. destruct (step_origin st0 Hinv) as [Heq Hnext].
    rewrite search_loop_step, Heq, Hs. apply IH. by apply Hnext.
Qed.

End OriginCell.

(** X6.  [aStar] never reads what the grid holds at the origin: two grids
    that differ in the cell of the origin only give the same result,
    empty path, path or fault, for every target. *)
Theorem origin_cell_not_read `{PriorityQueue} (grid grid' : Grid)
    (startX startY v destX destY : Z) :
  set2 grid startX startY v = Ok grid' →
  aStar grid' startX startY destX destY = aStar grid startX startY destX destY.
Proof.
  intros Hset. unfold aStar.
  pose proof Hset as (row & old & Hx & Hrow & Hy & Hold & ->)%set2_Ok.
  rewrite length_insert.
  destruct grid as [|row0 g]; [done|].
  assert (∃ row0', vec_at (<[Z.to_nat startX := <[Z.to_nat startY := v]> row]>
                             (row0 :: g)) 0 = Ok row0' ∧
                   length row0' = length row0) as (row0' & Hv & Hlen).
  { destruct (Z.to_nat startX) as [|i] eqn:Hi; cbn.
    - cbn in Hrow. injection Hrow as ->. eexists. split; [done|].
      by rewrite length_insert.
    - by exists row0. }
  rewrite Hv. change (vec_at (row0 :: g) 0) with (Ok row0).
  cbn [mbind outcome_bind]. rewrite Hlen.
  destruct (_ || _); [done|].
  apply (search_loop_origin (row0 :: g) _ startX startY v Hset).
  right. cbn [frontier]. rewrite pq_items_push, pq_items_empty.
  by constructor.
Qed.

Lemma origin_cell_not_read_witness :
  @aStar fifo_pq (<[0%nat := [1; 0; 1; 0; 0]]> wall_grid) 0 0 4 4 =
  @aStar fifo_pq wall_grid 0 0 4 4.
Proof.
  apply (@origin_cell_not_read fifo_pq wall_grid _ 0 0 1 4 4). reflexivity.
Defined.

(** * The two readers and the whole of [main] *)

(** ** Input files, as [operator>>] sees them

    A file is the sequence of tokens that the extractions of [int]s meet:
    a numeral that an [int] holds, a numeral above or below the range of
    [int], or anything that is not a numeral.  An [ifstream] is in a good
    state with the tokens still to be read, or it has failed; a file that
    cannot be opened is a stream that has failed from the start. *)

Inductive token : Type :=
| Int (z : Z)
| TooBig
| TooSmall
| Junk.

Inductive stream : Type :=
| Good (ts : list token)
| Failed.

(** [file >> x]: what is written to [x], if anything, and the stream
    after.  At the end of the file and on a failed stream nothing is
    written; a token that is not a numeral writes 0, a numeral out of range
    the nearest [int]; each of these failures leaves the stream failed. *)
Definition extract (file : stream) : option Z * stream :=
  match file with
  | Failed => (None, Failed)
  | Good [] => (None, Failed)
  | Good (Int z :: ts) => (Some z, Good ts)
  | Good (TooBig :: _) => (Some int_max, Failed)
  | Good (TooSmall :: _) => (Some int_min, Failed)
  | Good (Junk :: _) => (Some 0, Failed)
  end.

(** ** [readMapFromFile], lines 38-55 *)

(** The inner loop of lines 45-51 from column [j] on, [n] columns to go:
    the cells of the row, the stream and the start point after them.  A
    cell is 0 before the extraction writes to it. *)
Fixpoint read_cells (i j : Z) (n : nat) (file : stream) (start : option cell)
  : list Z * stream * option cell :=
  match n with
  | O => ([], file, start)
  | S n' =>
      let (w, file') := extract file in
      let v := default 0 w in
      let start' := if v =? 2 then Some (i, j) else start in
      let '(row, file'', start'') := read_cells i (j + 1) n' file' start' in
      (v :: row, file'', start'')
  end.

(** The outer loop of lines 44-52 from row [i] on, [m] rows to go. *)
Fixpoint read_rows (i : Z) (m cols : nat) (file : stream) (start : option cell)
  : list (list Z) * stream * option cell :=
  match m with
  | O => ([], file, start)
  | S m' =>
      let '(row, file', start') := read_cells i 0 cols file start in
      let '(rest, file'', start'') := read_rows (i + 1) m' cols file' start' in
      (row :: rest, file'', start'')
  end.

(** [readMapFromFile]: the map, and the start point behind the references
    [startX] and [startY], which is [None] as long as nothing was written
    to them.  [rows] or [cols] left unwritten is an indeterminate size, a
    negative one makes the vector constructor throw. *)
Definition readMapFromFile (file : stream) (start : option cell)
  : outcome (Grid * option cell) :=
  let (rows, file1) := extract file in
  let (cols, file2) := extract file1 in
  match rows, cols with
  | Some rows, Some cols =>
      if (rows <? 0) || (cols <? 0) then Fault
      else
        let '(map, _, start') :=
          read_rows 0 (Z.to_nat rows) (Z.to_nat cols) file2 start in
        Ok (map, start')
  | _, _ => Fault
  end.

(** ** [readDestinationsAndPrioritiesFromFile], lines 59-68 *)

(** The condition of the while loop of line 63: the three extractions, and
    the stream still good after them. *)
Definition extract3 (file : stream) : option (Destination * stream) :=
  let (destX, file1) := extract file in
  let (destY, file2) := extract file1 in
  let (priority, file3) := extract file2 in
  match file3, destX, destY, priority with
  | Good _, Some x, Some y, Some p => Some ((x, y, p), file3)
  | _, _, _, _ => None
  end.

Definition remaining (file : stream) : nat :=
  match file with
  | Good ts => length ts
  | Failed => 0
  end.

Lemma extract3_remaining (file file' : stream) (d : Destination) :
  extract3 file = Some (d, file') → (remaining file' < remaining file)%nat.
Proof.
  unfold extract3.
  destruct file as [[|[]ts]|]; cbn; try done.
  destruct ts as [|[]ts]; cbn; try done.
  destruct ts as [|[]ts]; cbn; try done.
  intros [= <- <-]. cbn. lia.
Qed.

(** The while loop of lines 63-65: the destinations in the order in which
    [emplace_back] appends them. *)
Equations? readDestinationsAndPrioritiesFromFile (file : stream)
  : list Destination by wf (remaining file) lt :=
readDestinationsAndPrioritiesFromFile file with Logic.inspect (extract3 file) := {
  | exist _ None _ => [];
  | exist _ (Some (d, file')) Hread =>
      d :: readDestinationsAndPrioritiesFromFile file' }.
Proof. exact (extract3_remaining _ _ _ Hread). Qed.

(** ** The whole of [main], lines 122-169

    After the two reads [main] goes on as [main] above does from line 131
    on.  When the map held no start marker, [startX] and [startY] are
    indeterminate: [main] still prints the listing, and the first search of
    line 151, if there is one, reads them. *)
Definition program `{PriorityQueue} (mapFile destFile : stream)
  : outcome (list Destination * list Leg) :=
  r ← readMapFromFile mapFile None;
  let ds := readDestinationsAndPrioritiesFromFile destFile in
  match r.2 with
  | Some start => main r.1 start ds
  | None =>
      buckets ← make_buckets ds;
      listing ← sorted_addresses tiers buckets;
      match listing with
      | [] => Ok ([], [])
      | _ => Fault
      end
  end.

Definition wall_file : stream :=
  Good (Int 5 :: Int 5 ::
        (Int <$> [2; 0; 1; 0; 0;
                  0; 0; 1; 0; 0;
                  0; 0; 1; 0; 0;
                  0; 0; 1; 0; 0;
                  0; 0; 0; 0; 0])).

(** ** Reading destinations *)

Lemma read_destinations_step (file : stream) :
  readDestinationsAndPrioritiesFromFile file =
  match extract3 file with
  | Some (d, file') => d :: readDestinationsAndPrioritiesFromFile file'
  | None => []
  end.
Proof.
  apply (readDestinationsAndPrioritiesFromFile_elim
           (λ file r, r = match extract3 file with
                          | Some (d, file') =>
                              d :: readDestinationsAndPrioritiesFromFile file'
                          | None => []
                          end)).
  - intros f d f' Hread _ _. by rewrite Hread.
  - intros f e _. by rewrite e.
Qed.

(** The tokens of a destination file that lists [ds]. *)
Fixpoint destination_tokens (ds : list Destination) : list token :=
  match ds with
  | [] => []
  | (x, y, p) :: ds' => Int x :: Int y :: Int p :: destination_tokens ds'
  end.

(** The tokens begin with three numerals. *)
Definition starts_with_triple (ts : list token) : bool :=
  match ts with
  | Int _ :: Int _ :: Int _ :: _ => true
  | _ => false
  end.

Lemma extract3_no_triple (ts : list token) :
  starts_with_triple ts = false → extract3 (Good ts) = None.
Proof.
  unfold extract3.
  destruct ts as [|[] ts]; cbn; try done.
  destruct ts as [|[] ts]; cbn; try done.
  destruct ts as [|[] ts]; cbn; done.
Qed.

(** X7.  Reading back a destination file gives the destinations that were
    written to it, in their order, and the reading stops at the first place
    where three numerals in a row cannot be read: what follows, be it one or
    two numbers left over or anything else, is dropped without a report.  A
    file that cannot be opened reads as no destinations. *)
Theorem read_destinations_roundtrip (ds : list Destination) (rest : list token) :
  starts_with_triple rest = false →
  readDestinationsAndPrioritiesFromFile (Good (destination_tokens ds ++ rest)) = ds ∧
  readDestinationsAndPrioritiesFromFile Failed = [].
Proof.
  intros Hrest. split.
  - induction ds as [|[[x y] p] ds IH]; rewrite read_destinations_step.
    + cbn [destination_tokens app]. by rewrite extract3_no_triple.
    + cbn. by rewrite IH.
  - by rewrite read_destinations_step.
Qed.

Lemma read_destinations_roundtrip_witness :
  readDestinationsAndPrioritiesFromFile
    (Good (destination_tokens [((4, 4), 1); ((0, 4), 2)] ++ [Int 3; Int 3; Junk; Int 1]))
  = [((4, 4), 1); ((0, 4), 2)] ∧
  readDestinationsAndPrioritiesFromFile Failed = [].
Proof.
  apply (read_destinations_roundtrip [((4, 4), 1); ((0, 4), 2)]
           [Int 3; Int 3; Junk; Int 1]).
  reflexivity.
Defined.

(** ** Reading the map *)

(** The values that successive extractions store, up to and with the one
    that fails. *)
Fixpoint stored (ts : list token) : list Z :=
  match ts with
  | [] => []
  | Int z :: ts' => z :: stored ts'
  | TooBig :: _ => [int_max]
  | TooSmall :: _ => [int_min]
  | Junk :: _ => [0]
  end.

Definition stored_in (file : stream) : list Z :=
  match file with
  | Good ts => stored ts
  | Failed => []
  end.

Lemma extract_stored (file : stream) :
  default 0 (extract file).1 = default 0 (head (stored_in file)) ∧
  stored_in (extract file).2 = tail (stored_in file).
Proof. by destruct file as [[|[] ts]|]. Qed.

(** The start point after a row, and after the rows of a map, read off the
    cells. *)
Fixpoint scan_row (i j : Z) (row : list Z) (start : option cell) : option cell :=
  match row with
  | [] => start
  | v :: row' => scan_row i (j + 1) row' (if v =? 2 then Some (i, j) else start)
  end.

Fixpoint scan_rows (i : Z) (g : list (list Z)) (start : option cell)
  : option cell :=
  match g with
  | [] => start
  | row :: g' => scan_rows (i + 1) g' (scan_row i 0 row start)
  end.

Lemma read_cells_spec (i j : Z) (n : nat) (file : stream) (start : option cell) :
  ∃ row file',
    read_cells i j n file start = (row, file', scan_row i j row start) ∧
    length row = n ∧
    (∀ k, (k < n)%nat → row !! k = Some (default 0 (stored_in file !! k))) ∧
    stored_in file' = drop n (stored_in file).
Proof.
  revert j file start. induction n as [|n IH]; intros j file start.
  - exists [], file. cbn. split; [done|]. split; [done|].
    split; [intros k Hk; lia|by rewrite drop_0].
  - cbn [read_cells]. destruct (extract file) as [w file1] eqn:He.
    pose proof (extract_stored file) as [Hv Hs]. rewrite He in Hv, Hs. cbn in Hv, Hs.
    destruct (IH (j + 1) file1 (if default 0 w =? 2 then Some (i, j) else start))
      as (row & file' & -> & Hlen & Hrow & Hst).
    exists (default 0 w :: row), file'. cbn. split; [done|].
    split; [by rewrite Hlen|]. split.
    + intros [|k] Hk; cbn.
      * rewrite Hv. by destruct (stored_in file).
      * rewrite Hrow by lia. by rewrite Hs, lookup_tail.
    + rewrite Hst, Hs. destruct (stored_in file); cbn; [by rewrite drop_nil|done].
Qed.

Lemma read_rows_spec (i : Z) (m c : nat) (file : stream) (start : option cell) :
  ∃ g file',
    read_rows i m c file start = (g, file', scan_rows i g start) ∧
    length g = m ∧ Forall (λ row, length row = c) g ∧
    (∀ a b row, g !! a = Some row → (b < c)%nat →
       row !! b = Some (default 0 (stored_in file !! (a * c + b)%nat))) ∧
    stored_in file' = drop (m * c) (stored_in file).
Proof.
  revert i file start. induction m as [|m IH]; intros i file start.
  - exists [], file. cbn. split; [done|]. split; [done|].
    split; [constructor|]. split; [done|by rewrite drop_0].
  - cbn [read_rows].
    destruct (read_cells_spec i 0 c file start) as (row & file1 & -> & Hlen & Hrow & Hst).
    destruct (IH (i + 1) file1 (scan_row i 0 row start))
      as (g & file' & -> & Hg & Hall & Hcells & Hst').
    exists (row :: g), file'. cbn. split; [done|]. split; [by rewrite Hg|].
    split; [by constructor|]. split.
    + intros [|a] b row' Ha Hb; cbn in Ha.
      * injection Ha as <-. by apply Hrow.
      * rewrite (Hcells a b row' Ha Hb), Hst, lookup_drop. do 3 f_equal. lia.
    + rewrite Hst', Hst, drop_drop. f_equal; lia.
Qed.

(** The map read from a file whose header holds two sizes. *)
Lemma read_map_spec (r c : Z) (ts : list token) (s0 : option cell) :
  0 ≤ r → 0 ≤ c →
  ∃ g,
    readMapFromFile (Good (Int r :: Int c :: ts)) s0 = Ok (g, scan_rows 0 g s0) ∧
    length g = Z.to_nat r ∧ Forall (λ row, length row = Z.to_nat c) g ∧
    ∀ a b row, g !! a = Some row → (b < Z.to_nat c)%nat →
      row !! b = Some (default 0 (stored ts !! (a * Z.to_nat c + b)%nat)).
Proof.
  intros Hr Hc. unfold readMapFromFile. cbn [extract].
  replace ((r <? 0) || (c <? 0)) with false by lia.
  destruct (read_rows_spec 0 (Z.to_nat r) (Z.to_nat c) (Good ts) s0)
    as (g & file' & -> & Hlen & Hall & Hcells & _).
  by exists g.
Qed.

(** The start point that a read returns is the one read off the map. *)
Lemma read_map_scan (file : stream) (s0 : option cell) (g : Grid)
    (start : option cell) :
  readMapFromFile file s0 = Ok (g, start) → start = scan_rows 0 g s0.
Proof.
  unfold readMapFromFile.
  destruct (extract file) as [[rows|] file1]; destruct (extract file1) as [[cols|] file2];
    try done.
  destruct (_ || _); [done|].
  destruct (read_rows_spec 0 (Z.to_nat rows) (Z.to_nat cols) file2 s0)
    as (g' & file' & -> & _).
  by intros [= <- <-].
Qed.

(** X8.  After a header of two sizes that are not negative,
    [readMapFromFile] returns a map of exactly that many rows and columns
    whatever follows in the file (storage permitting), and reports no
    error: cell (x, y) holds
    the value that the extraction number [x * cols + y] after the header
    stored, and 0 when the file had ended or an earlier extraction had
    failed. *)
Theorem read_map_cells (r c : Z) (ts : list token) (s0 : option cell) :
  0 ≤ r → 0 ≤ c →
  ∃ g start,
    readMapFromFile (Good (Int r :: Int c :: ts)) s0 = Ok (g, start) ∧
    Z.of_nat (length g) = r ∧ Forall (λ row, Z.of_nat (length row) = c) g ∧
    ∀ x y, 0 ≤ x < r → 0 ≤ y < c →
      at2 g x y = Ok (default 0 (stored ts !! Z.to_nat (x * c + y))).
Proof.
  intros Hr Hc.
  destruct (read_map_spec r c ts s0 Hr Hc) as (g & Hread & Hlen & Hall & Hcells).
  exists g, (scan_rows 0 g s0). split; [done|]. split; [lia|]. split.
  - eapply Forall_impl; [exact Hall|]. cbn. lia.
  - intros x y Hx Hy.
    destruct (lookup_lt_is_Some_2 g (Z.to_nat x)) as [row Hrow]; [lia|].
    apply at2_Ok. exists row. split; [lia|]. split; [done|]. split; [lia|].
    rewrite (Hcells _ _ _ Hrow) by lia. do 3 f_equal. nia.
Qed.

Lemma read_map_cells_witness :
  ∃ g start,
    readMapFromFile (Good [Int 2; Int 3; Int 0; Int 1; Int 2; Int 7; Junk; Int 1]) None
      = Ok (g, start) ∧
    Z.of_nat (length g) = 2 ∧ Forall (λ row, Z.of_nat (length row) = 3) g ∧
    ∀ x y, 0 ≤ x < 2 → 0 ≤ y < 3 →
      at2 g x y =
      Ok (default 0 (stored [Int 0; Int 1; Int 2; Int 7; Junk; Int 1]
                       !! Z.to_nat (x * 3 + y))).
Proof.
  apply (read_map_cells 2 3 [Int 0; Int 1; Int 2; Int 7; Junk; Int 1] None); lia.
Defined.

(** *** Writing a map and reading it back *)

Lemma read_cells_numerals (i j : Z) (row : list Z) (rest : list token)
    (start : option cell) :
  read_cells i j (length row) (Good ((Int <$> row) ++ rest)) start =
  (row, Good rest, scan_row i j row start).
Proof.
  revert j start. induction row as [|v row IH]; intros j start; [done|].
  cbn. by rewrite IH.
Qed.

Lemma read_rows_numerals (i : Z) (c : nat) (g : Grid) (rest : list token)
    (start : option cell) :
  Forall (λ row, length row = c) g →
  read_rows i (length g) c (Good ((Int <$> concat g) ++ rest)) start =
  (g, Good rest, scan_rows i g start).
Proof.
  intros Hall. revert i start.
  induction Hall as [|row g Hrow _ IH]; intros i start; [done|].
  cbn [length read_rows concat]. rewrite fmap_app, <- app_assoc, <- Hrow.
  rewrite read_cells_numerals, Hrow, IH. done.
Qed.

(** X9.  A map written as its two sizes followed by its cells, row after
    row, reads back as the same map, whatever follows the cells in the
    file. *)
Theorem read_map_roundtrip (g : Grid) (c : nat) (rest : list token)
    (s0 : option cell) :
  Forall (λ row, length row = c) g →
  ∃ start,
    readMapFromFile
      (Good (Int (Z.of_nat (length g)) :: Int (Z.of_nat c) ::
             (Int <$> concat g) ++ rest)) s0
    = Ok (g, start).
Proof.
  intros Hall. exists (scan_rows 0 g s0). unfold readMapFromFile. cbn [extract].
  rewrite !(proj2 (Z.ltb_ge _ 0)) by lia. cbn [orb].
  rewrite !Nat2Z.id. by rewrite read_rows_numerals.
Qed.

Lemma read_map_roundtrip_witness :
  ∃ start,
    readMapFromFile
      (Good (Int 5 :: Int 5 :: (Int <$> concat wall_grid) ++ [Junk; Int 4])) None
    = Ok (wall_grid, start).
Proof.
  apply (read_map_roundtrip wall_grid 5 [Junk; Int 4] None).
  repeat constructor.
Defined.

(** *** The start marker *)

Lemma scan_row_spec (i j : Z) (row : list Z) (s : option cell) :
  (Forall (λ v, v ≠ 2) row ∧ scan_row i j row s = s) ∨
  (∃ k, row !! k = Some 2 ∧ (∀ k', (k < k')%nat → row !! k' ≠ Some 2) ∧
        scan_row i j row s = Some (i, j + Z.of_nat k)).
Proof.
  revert j s. induction row as [|v row IH]; intros j s; [by left|].
  cbn [scan_row].
  destruct (IH (j + 1) (if v =? 2 then Some (i, j) else s))
    as [[Hno ->]|(k & Hk & Hlast & ->)].
  - destruct (Z.eqb_spec v 2) as [->|Hv].
    + right. exists 0%nat. split; [done|]. split; [|by rewrite Z.add_0_r].
      intros [|k'] Hk'; [lia|]. cbn. intros Hin.
      apply list_elem_of_lookup_2 in Hin.
      by eapply (proj1 (Forall_forall _ _) Hno) in Hin.
    + left. split; [by constructor|done].
  - right. exists (S k). split; [done|]. split.
    + intros [|k'] Hk'; [lia|]. cbn. apply Hlast. lia.
    + do 2 f_equal. lia.
Qed.

Lemma scan_rows_spec (i : Z) (g : Grid) (s : option cell) :
  (Forall (Forall (λ v, v ≠ 2)) g ∧ scan_rows i g s = s) ∨
  (∃ a k row, g !! a = Some row ∧ row !! k = Some 2 ∧
     (∀ a' k' row', g !! a' = Some row' → row' !! k' = Some 2 →
        (a' < a)%nat ∨ (a' = a ∧ (k' ≤ k)%nat)) ∧
     scan_rows i g s = Some (i + Z.of_nat a, Z.of_nat k)).
Proof.
  revert i s. induction g as [|row g IH]; intros i s; [by left|].
  cbn [scan_rows].
  destruct (IH (i + 1) (scan_row i 0 row s))
    as [[Hno ->]|(a & k & row1 & Ha & Hk & Hlast & ->)].
  - destruct (scan_row_spec i 0 row s) as [[Hrow ->]|(k & Hk & Hlast & ->)].
    + left. split; [by constructor|done].
    + right. exists 0%nat, k, row. split; [done|]. split; [done|]. split.
      * intros [|a'] k' row'; cbn.
        -- intros [= <-] Hk'. right. split; [done|].
           destruct (decide (k < k')%nat) as [Hlt|]; [|lia].
           by destruct (Hlast k' Hlt).
        -- intros Ha' Hk'. apply list_elem_of_lookup_2 in Ha', Hk'.
           eapply (proj1 (Forall_forall _ _) Hno) in Ha'.
           by eapply (proj1 (Forall_forall _ _) Ha') in Hk'.
      * by rewrite Z.add_0_r.
  - right. exists (S a), k, row1. split; [done|]. split; [done|]. split.
    + intros [|a'] k' row'; cbn; [lia|].
      intros Ha' Hk'. destruct (Hlast a' k' row' Ha' Hk'); lia.
    + do 2 f_equal. lia.
Qed.

(** What [scan_rows] returns when no start point was there before. *)
Lemma scan_rows_start (g : Grid) :
  match scan_rows 0 g None with
  | Some (x, y) =>
      at2 g x y = Ok 2 ∧
      ∀ x' y', at2 g x' y' = Ok 2 → x' < x ∨ (x' = x ∧ y' ≤ y)
  | None => ∀ x y, at2 g x y ≠ Ok 2
  end.
Proof.
  destruct (scan_rows_spec 0 g None) as [[Hno ->]|(a & k & row & Ha & Hk & Hlast & ->)].
  - intros x y (row & _ & Hrow & _ & Hv)%at2_Ok.
    apply list_elem_of_lookup_2 in Hrow, Hv.
    eapply (proj1 (Forall_forall _ _) Hno) in Hrow.
    by eapply (proj1 (Forall_forall _ _) Hrow) in Hv.
  - split.
    + apply at2_Ok. exists row. rewrite Z.add_0_l, !Nat2Z.id.
      repeat split; try done; lia.
    + intros x' y' (row' & Hx' & Hrow' & Hy' & Hv)%at2_Ok.
      destruct (Hlast _ _ _ Hrow' Hv); lia.
Qed.

(** X10.  The start point that [readMapFromFile] leaves in [startX] and
    [startY], called as [main] calls it with nothing in them: when some
    cell of the map holds 2, the start point is such a cell, and the last
    of them in row-major order; when no cell holds 2, nothing is written to
    [startX] and [startY]. *)
Theorem read_map_start (file : stream) (g : Grid) (start : option cell) :
  readMapFromFile file None = Ok (g, start) →
  match start with
  | Some (x, y) =>
      at2 g x y = Ok 2 ∧
      ∀ x' y', at2 g x' y' = Ok 2 → x' < x ∨ (x' = x ∧ y' ≤ y)
  | None => ∀ x y, at2 g x y ≠ Ok 2
  end.
Proof. intros ->%read_map_scan. apply scan_rows_start. Qed.

Lemma read_map_start_witness :
  at2 [[0; 2; 0]; [2; 0; 2]; [0; 0; 0]] 1 2 = Ok 2 ∧
  ∀ x' y', at2 [[0; 2; 0]; [2; 0; 2]; [0; 0; 0]] x' y' = Ok 2 →
    x' < 1 ∨ (x' = 1 ∧ y' ≤ 2).
Proof.
  apply (read_map_start
           (Good (Int 3 :: Int 3 :: (Int <$> [0; 2; 0; 2; 0; 2; 0; 0; 0])))
           [[0; 2; 0]; [2; 0; 2]; [0; 0; 0]] (Some (1, 2))).
  reflexivity.
Defined.

(** *** Headers *)

(** The headers from which both sizes of the map are read and neither is
    negative.  A second size that is not a numeral, or too large for an
    [int], is still written: as 0, or as the largest [int]. *)
Definition header_ok (file : stream) : bool :=
  match file with
  | Good (Int r :: Int c :: _) => (0 <=? r) && (0 <=? c)
  | Good (Int r :: TooBig :: _) => 0 <=? r
  | Good (Int r :: Junk :: _) => 0 <=? r
  | _ => false
  end.

(** X11.  [readMapFromFile] checks nothing and reports nothing: it builds
    the map from sizes that are indeterminate or negative, which is a
    fault, exactly when the file cannot be opened, is empty, does not begin
    with a numeral that is not negative, or holds nothing more than that or
    a negative size after it.  On every other file it returns a map,
    storage permitting. *)
Theorem read_map_header (file : stream) (s0 : option cell) :
  readMapFromFile file s0 = Fault ↔ header_ok file = false.
Proof.
  unfold readMapFromFile.
  destruct file as [[|[r| | |] [|[c| | |] ts]]|]; cbn [extract header_ok]; try done.
  all: destruct (read_rows _ _ _ _ _) as [[? ?] ?].
  all: unfold int_min, int_max; case_match; split; intros; try done; lia.
Qed.

(** ** The whole program *)

(** A map of [r] rows of [c] cells each is well formed, when it has a row
    and the sizes are values of [int]. *)
Lemma read_map_wf (g : Grid) (r c : Z) :
  0 < r ≤ int_max → 0 ≤ c ≤ int_max →
  length g = Z.to_nat r → Forall (λ row, length row = Z.to_nat c) g →
  wf_grid g = true ∧ grid_rows g = r ∧ grid_cols g = c.
Proof.
  intros Hr Hc Hlen Hall. destruct g as [|row0 g]; [cbn in Hlen; lia|].
  pose proof (Forall_inv Hall) as Hrow0. cbn beta in Hrow0.
  assert (Hrows : grid_rows (row0 :: g) = r) by (unfold grid_rows; lia).
  assert (Hcols : grid_cols (row0 :: g) = c) by (unfold grid_cols; lia).
  split; [|done]. unfold wf_grid, sized_grid. rewrite Hrows, Hcols.
  apply andb_true_iff. split; [lia|].
  apply forallb_forall. intros row Hrow%list_elem_of_In.
  apply (proj1 (Forall_forall _ _) Hall) in Hrow. lia.
Qed.

(** The cells of the map that hold what the file stored in its first
    [r * c] places after the header. *)
Lemma read_map_marker (g : Grid) (r c : Z) (vs : list Z) :
  0 ≤ r → 0 ≤ c →
  length g = Z.to_nat r → Forall (λ row, length row = Z.to_nat c) g →
  (∀ a b row, g !! a = Some row → (b < Z.to_nat c)%nat →
     row !! b = Some (default 0 (vs !! (a * Z.to_nat c + b)%nat))) →
  (∃ x y, at2 g x y = Ok 2) ↔ 2 ∈ take (Z.to_nat (r * c)) vs.
Proof.
  intros Hr Hc Hlen Hall Hcells. split.
  - intros (x & y & (row & Hx & Hrow & Hy & Hv)%at2_Ok).
    pose proof (lookup_lt_Some _ _ _ Hrow) as Hx'.
    pose proof (lookup_lt_Some _ _ _ Hv) as Hy'.
    apply list_elem_of_lookup_2 in Hrow as Hin.
    apply (proj1 (Forall_forall _ _) Hall) in Hin. cbn beta in Hin.
    rewrite (Hcells _ _ _ Hrow) in Hv by lia. injection Hv as Hv.
    destruct (vs !! _) as [v|] eqn:Hk; [|done]. cbn in Hv. subst v.
    apply (list_elem_of_lookup_2 _ (Z.to_nat x * Z.to_nat c + Z.to_nat y)%nat).
    rewrite lookup_take_lt; [done|nia].
  - intros [k Hk]%list_elem_of_lookup_1.
    pose proof (lookup_lt_Some _ _ _ Hk) as Hlt.
    rewrite length_take in Hlt.
    rewrite lookup_take_lt in Hk by lia.
    assert (Hc' : (0 < Z.to_nat c)%nat) by nia.
    pose proof (Nat.div_mod_eq k (Z.to_nat c)) as Hdm.
    pose proof (Nat.mod_upper_bound k (Z.to_nat c) ltac:(lia)) as Hmod.
    assert (Hdiv : (k `div` Z.to_nat c < Z.to_nat r)%nat).
    { apply Nat.Div0.div_lt_upper_bound. nia. }
    destruct (lookup_lt_is_Some_2 g (k `div` Z.to_nat c)%nat) as [row Hrow]; [lia|].
    exists (Z.of_nat (k `div` Z.to_nat c)), (Z.of_nat (k `mod` Z.to_nat c)).
    apply at2_Ok. exists row. rewrite !Nat2Z.id.
    split; [lia|]. split; [done|]. split; [lia|].
    rewrite (Hcells _ _ _ Hrow) by lia.
    replace (_ + _)%nat with k by lia. by rewrite Hk.
Qed.

(** What the report says of a leg: a path of the least number of steps
    among the routes from its origin to its destination, or no path when
    there is no route. *)
Definition leg_shortest (grid : Grid) (l : Leg) : Prop :=
  match leg_path l with
  | [] => ¬ ∃ q, route grid (leg_origin l) (leg_dest l) q
  | p => route grid (leg_origin l) (leg_dest l) p ∧
         ∀ q, route grid (leg_origin l) (leg_dest l) q → steps p ≤ steps q
  end.

Section ReportFacts.
Context `{PQ : PriorityQueue}.
Variable grid : Grid.
Hypothesis Hwf : wf_grid grid = true.

(** Every leg of a report starts in bounds. *)
Lemma legs_in_grid (start : cell) (legs : list Leg) :
  in_grid grid start = true → chained start legs →
  Forall (leg_searched grid) legs →
  Forall (λ l, in_grid grid (leg_origin l) = true) legs.
Proof.
  revert start. induction legs as [|l legs IH]; intros start Hin Hc Hs;
    [constructor|].
  destruct Hc as [Ho Hc]. apply Forall_cons in Hs as [Hl Hs].
  constructor; [by rewrite Ho|].
  apply (IH (next_origin l)); [|done|done].
  unfold next_origin, leg_found.
  destruct (leg_path l) as [|c p] eqn:Hp; [by rewrite Ho|].
  destruct (aStar_returns grid Hwf (leg_origin l) (leg_dest l)) as (p' & Hp' & Hr);
    [by rewrite Ho|].
  unfold leg_searched in Hl. rewrite Hl in Hp'. injection Hp' as <-.
  rewrite Hp in Hr. destruct Hr as [|Hr]; [done|].
  eapply route_target_in_grid; [|exact Hr]. by rewrite Ho.
Qed.

Lemma leg_searched_shortest (l : Leg) :
  grid_fits grid = true → in_grid grid (leg_origin l) = true →
  leg_searched grid l → leg_shortest grid l.
Proof.
  intros Hfits Hin Hl. unfold leg_searched in Hl. unfold leg_shortest.
  destruct (leg_path l) as [|c p] eqn:Hp.
  - intros [q Hq].
    destruct (aStar_finds grid Hwf _ _ q Hin Hq) as (p' & Hp' & Hr).
    rewrite Hl in Hp'. injection Hp' as <-.
    inversion Hr as [|? p0 ? ? ? ? E]. by destruct p0.
  - destruct (aStar_returns grid Hwf (leg_origin l) (leg_dest l) Hin)
      as (p' & Hp' & Hr).
    rewrite Hl in Hp'. injection Hp' as <-. destruct Hr as [|Hr]; [done|].
    destruct (aStar_least grid Hwf _ _ _ Hfits Hin Hr) as (p' & Hp' & Hr' & Hmin).
    rewrite Hl in Hp'. by injection Hp' as <-.
Qed.

(** [main] on a grid that fits the arithmetic of the search. *)
Lemma main_shortest (start : cell) (ds : list Destination) :
  grid_fits grid = true → in_grid grid start = true → priorities_in_range ds →
  ∃ legs,
    main grid start ds = Ok (selected ds, legs) ∧
    (λ l, (leg_dest l, leg_priority l)) <$> legs = selected ds ∧
    chained start legs ∧ Forall (leg_shortest grid) legs.
Proof.
  intros Hfits Hin Hr.
  destruct (main_spec grid Hwf start ds Hin Hr) as (legs & Hm & Hd & Hc & Hs).
  exists legs. repeat split; try done.
  pose proof (legs_in_grid start legs Hin Hc Hs) as Hins.
  apply Forall_forall. intros l Hl.
  apply leg_searched_shortest; [done| |].
  - by apply (proj1 (Forall_forall _ _) Hins).
  - by apply (proj1 (Forall_forall _ _) Hs).
Qed.

End ReportFacts.

(** X12.  The report of [main] as a whole: on a well-formed grid that
    fits the [int] arithmetic of the search, from a start cell in bounds
    and for priorities that index the buckets, [main] reports one leg for
    each destination of the listing, each leg starting where the one before
    left the agent, and every leg holds a route of the least number of
    steps from there to its destination, or no path exactly when no route
    leads there. *)
Theorem report_legs_shortest `{PriorityQueue} (grid : Grid) (start : cell)
    (ds : list Destination) :
  wf_grid grid = true → grid_fits grid = true → in_grid grid start = true →
  priorities_in_range ds →
  ∃ legs,
    main grid start ds = Ok (selected ds, legs) ∧
    (λ l, (leg_dest l, leg_priority l)) <$> legs = selected ds ∧
    chained start legs ∧ Forall (leg_shortest grid) legs.
Proof. intros Hwf. by apply main_shortest. Qed.

Lemma report_legs_shortest_witness :
  ∃ legs,
    @main fifo_pq wall_grid (0, 0) sample_destinations
      = Ok (selected sample_destinations, legs) ∧
    (λ l, (leg_dest l, leg_priority l)) <$> legs = selected sample_destinations ∧
    chained (0, 0) legs ∧ Forall (leg_shortest wall_grid) legs.
Proof.
  apply (@report_legs_shortest fifo_pq wall_grid (0, 0) sample_destinations).
  - reflexivity.
  - reflexivity.
  - reflexivity.
  - unfold priorities_in_range, sample_destinations. repeat constructor; cbn; lia.
Defined.

(** X13.  The program on its two files.  When the map file begins with
    the sizes [r] and [c], small enough for the arithmetic of the search,
    and one of the [r * c] values stored after them is the start marker 2,
    and every destination read has a priority from 0 to 3, then the program
    runs to its end without a fault: the map read is well formed, the start
    point is a cell that holds the marker, the listing is the destinations
    of priorities 1, 2 and 3, and every leg, chained from the start point,
    holds a shortest route or no path when there is no route. *)
Theorem program_runs `{PriorityQueue} (r c : Z) (ts : list token)
    (destFile : stream) :
  0 ≤ r → 0 ≤ c → (r + 1) * (c + 1) ≤ 2 ^ 31 →
  2 ∈ take (Z.to_nat (r * c)) (stored ts) →
  priorities_in_range (readDestinationsAndPrioritiesFromFile destFile) →
  ∃ g start legs,
    readMapFromFile (Good (Int r :: Int c :: ts)) None = Ok (g, Some start) ∧
    wf_grid g = true ∧ at2 g start.1 start.2 = Ok 2 ∧
    program (Good (Int r :: Int c :: ts)) destFile
      = Ok (selected (readDestinationsAndPrioritiesFromFile destFile), legs) ∧
    chained start legs ∧ Forall (leg_shortest g) legs.
Proof.
  intros Hr Hc Hfit Hmark Hds.
  destruct (read_map_spec r c ts None Hr Hc) as (g & Hread & Hlen & Hall & Hcells).
  pose proof (proj2 (read_map_marker g r c (stored ts) Hr Hc Hlen Hall Hcells) Hmark)
    as (x0 & y0 & Hxy).
  pose proof (scan_rows_start g) as Hstart.
  destruct (scan_rows 0 g None) as [[x y]|]; [|by destruct (Hstart x0 y0)].
  destruct Hstart as [Hat _].
  assert (0 < r * c).
  { apply list_elem_of_lookup_1 in Hmark as [k Hk].
    apply lookup_lt_Some in Hk. rewrite length_take in Hk. lia. }
  unfold int_max in *.
  destruct (read_map_wf g r c) as (Hwf & Hrows & Hcols); try done;
    [unfold int_max; nia..|].
  assert (Hfits : grid_fits g = true).
  { unfold grid_fits. rewrite Hrows, Hcols. lia. }
  pose proof (grid_at2_valid g Hwf x y 2 Hat) as Hin.
  destruct (main_shortest g Hwf (x, y)
              (readDestinationsAndPrioritiesFromFile destFile) Hfits Hin Hds)
    as (legs & Hm & _ & Hch & Hs).
  exists g, (x, y), legs. repeat split; try done.
  unfold program. rewrite Hread. done.
Qed.

Lemma program_runs_witness :
  ∃ g start legs,
    readMapFromFile wall_file None = Ok (g, Some start) ∧
    wf_grid g = true ∧ at2 g start.1 start.2 = Ok 2 ∧
    @program fifo_pq wall_file (Good (destination_tokens [((4, 4), 1); ((0, 4), 2)]))
      = Ok (selected (readDestinationsAndPrioritiesFromFile
                        (Good (destination_tokens [((4, 4), 1); ((0, 4), 2)]))),
            legs) ∧
    chained start legs ∧ Forall (leg_shortest g) legs.
Proof.
  apply (@program_runs fifo_pq 5 5).
  - lia.
  - lia.
  - vm_compute. discriminate.
  - vm_compute. constructor.
  - repeat (rewrite read_destinations_step; cbn). unfold priorities_in_range.
    repeat constructor; cbn; lia.
Defined.

(** X14.  The program on a map without a start marker: when none of the
    [r * c] values stored after the header is 2, [startX] and [startY]
    stay as they were declared, without a value.  The program then runs to
    its end only if no destination has priority 1, 2 or 3, with an empty
    listing and no leg; with such a destination the first search reads the
    start point that was never written, a fault. *)
Theorem program_without_marker `{PriorityQueue} (r c : Z) (ts : list token)
    (destFile : stream) :
  0 ≤ r → 0 ≤ c →
  2 ∉ take (Z.to_nat (r * c)) (stored ts) →
  priorities_in_range (readDestinationsAndPrioritiesFromFile destFile) →
  program (Good (Int r :: Int c :: ts)) destFile =
  match selected (readDestinationsAndPrioritiesFromFile destFile) with
  | [] => Ok ([], [])
  | _ => Fault
  end.
Proof.
  intros Hr Hc Hmark Hds.
  destruct (read_map_spec r c ts None Hr Hc) as (g & Hread & Hlen & Hall & Hcells).
  pose proof (read_map_marker g r c (stored ts) Hr Hc Hlen Hall Hcells) as Hiff.
  pose proof (scan_rows_start g) as Hstart.
  destruct (scan_rows 0 g None) as [[x y]|].
  { destruct Hmark. apply Hiff. exists x, y. by destruct Hstart. }
  unfold program. rewrite Hread. cbn [mbind outcome_bind fst snd].
  unfold make_buckets. change (replicate 4 []) with [@nil cell; []; []; []].
  rewrite (fill_buckets_spec _ [] [] [] [] Hds). cbn [app mbind outcome_bind].
  rewrite sorted_addresses_tiers, !tier_of_pairs. done.
Qed.

Lemma program_without_marker_witness :
  @program fifo_pq (Good [Int 2; Int 2; Int 0; Int 0; Int 0; Int 0; Int 2])
    (Good (destination_tokens [((1, 1), 1)])) =
  match selected (readDestinationsAndPrioritiesFromFile
                    (Good (destination_tokens [((1, 1), 1)]))) with
  | [] => Ok ([], [])
  | _ => Fault
  end.
Proof.
  apply (@program_without_marker fifo_pq 2 2 [Int 0; Int 0; Int 0; Int 0; Int 2]).
  - lia.
  - lia.
  - vm_compute. intros Hin. repeat (inversion Hin as [|? ? ? Hin']; clear Hin; rename Hin' into Hin).
  - repeat (rewrite read_destinations_step; cbn). unfold priorities_in_range.
    repeat constructor; cbn; lia.
Defined.

(** * More on the search and on the report *)

(** ** Two grids of one shape *)

Section GridRelation.
Variable R : Z → Z → Prop.
Variables grid grid' : Grid.
Hypothesis Hrel : Forall2 (Forall2 R) grid grid'.

Lemma related_at2 (x y : Z) :
  match at2 grid x y, at2 grid' x y with
  | Ok v, Ok w => R v w
  | Fault, Fault => True
  | _, _ => False
  end.
Proof.
  unfold at2, vec_at. destruct (decide (0 ≤ x)); [|done].
  destruct (grid !! Z.to_nat x) as [row|] eqn:Hrow.
  - destruct (Forall2_lookup_l _ _ _ _ _ Hrel Hrow) as (row' & -> & Hrows). cbn.
    destruct (decide (0 ≤ y)); [|done].
    destruct (row !! Z.to_nat y) as [v|] eqn:Hv.
    + by destruct (Forall2_lookup_l _ _ _ _ _ Hrows Hv) as (w & -> & Hvw).
    + assert (row' !! Z.to_nat y = None) as ->; [|done].
      apply lookup_ge_None. rewrite <- (Forall2_length _ _ _ Hrows).
      by apply lookup_ge_None.
  - assert (grid' !! Z.to_nat x = None) as ->; [|done].
    apply lookup_ge_None. rewrite <- (Forall2_length _ _ _ Hrel).
    by apply lookup_ge_None.
Qed.

Lemma related_rows : grid_rows grid' = grid_rows grid.
Proof. unfold grid_rows. by rewrite (Forall2_length _ _ _ Hrel). Qed.

Lemma related_cols : grid_cols grid' = grid_cols grid.
Proof.
  unfold grid_cols. destruct Hrel as [|row row' g g' Hrow _]; [done|].
  by rewrite (Forall2_length _ _ _ Hrow).
Qed.

Lemma related_in_grid (c : cell) : in_grid grid' c = in_grid grid c.
Proof. unfold in_grid. by rewrite related_rows, related_cols. Qed.

Lemma related_wf : wf_grid grid = true → wf_grid grid' = true.
Proof.
  unfold wf_grid, sized_grid. rewrite related_rows, related_cols.
  intros [Hs Hall]%andb_true_iff. apply andb_true_iff. split.
  - destruct Hrel; [done|]. done.
  - rewrite forallb_forall in Hall. apply forallb_forall.
    intros row' [i Hi]%list_elem_of_In%list_elem_of_lookup_1.
    destruct (Forall2_lookup_r _ _ _ _ _ Hrel Hi) as (row & Hrow & Hrows).
    rewrite <- (Forall2_length _ _ _ Hrows).
    by apply Hall, list_elem_of_In, list_elem_of_lookup_2 with i.
Qed.

End GridRelation.

(** ** Only the value 1 blocks *)

Section SameObstacles.
Context `{PQ : PriorityQueue}.
Variables grid grid' : Grid.
Hypothesis Hrel : Forall2 (Forall2 (λ v w, (v =? 1) = (w =? 1))) grid grid'.
Variables rows cols destX destY : Z.

Lemma neighbour_node_obstacles (vis : list (list bool)) (n : Node) (d : Z * Z) :
  neighbour_node grid' rows cols destX destY vis n d =
  neighbour_node grid rows cols destX destY vis n d.
Proof.
  unfold neighbour_node. cbn zeta.
  destruct (isValid _ _ rows cols); [|done].
  destruct (at2 vis _ _) as [[]|]; [done| |done]. cbn.
  pose proof (related_at2 _ grid grid' Hrel
                (int_add (node_x n) d.1) (int_add (node_y n) d.2)) as H.
  destruct (at2 grid _ _), (at2 grid' _ _); try done. cbn. by rewrite H.
Qed.

Lemma push_neighbours_obstacles (vis : list (list bool)) (n : Node)
    (ds : list (Z * Z)) (q : pq) :
  push_neighbours grid' rows cols destX destY vis n ds q =
  push_neighbours grid rows cols destX destY vis n ds q.
Proof.
  revert q. induction ds as [|d ds IH]; intros q; [done|].
  cbn. rewrite neighbour_node_obstacles.
  destruct (neighbour_node grid _ _ _ _ vis n d) as [o|]; [|done]. cbn. apply IH.
Qed.

Lemma step_obstacles (st : search_state) :
  step grid' rows cols destX destY st = step grid rows cols destX destY st.
Proof.
  unfold step. destruct (pq_pop (frontier st)) as [[n q]|]; [|done].
  destruct (_ && _); [done|].
  destruct (set2 (visited st) _ _ true) as [vis|]; [|done].
  by rewrite push_neighbours_obstacles.
Qed.

Lemma search_loop_obstacles (st : search_state) :
  search_loop grid' rows cols destX destY st =
  search_loop grid rows cols destX destY st.
Proof.
  apply (search_loop_elim grid rows cols destX destY
           (λ st r, search_loop grid' rows cols destX destY st = r)).
  - intros st0 r e _. by rewrite search_loop_step, step_obstacles, e.
  - intros st0 st' Hs IH _. by rewrite search_loop_step, step_obstacles, Hs.
Qed.

End SameObstacles.

(** X15.  Of the values of the grid the search reads nothing but whether
    a cell holds 1: two grids of the same shape whose cells hold 1 at the
    same places give the same result, for every origin and target.  The
    start marker 2, and any other value, is a cell like one that holds 0. *)
Theorem aStar_same_obstacles `{PriorityQueue} (grid grid' : Grid)
    (startX startY destX destY : Z) :
  Forall2 (Forall2 (λ v w, (v =? 1) = (w =? 1))) grid grid' →
  aStar grid' startX startY destX destY = aStar grid startX startY destX destY.
Proof.
  intros Hrel. unfold aStar. rewrite (Forall2_length _ _ _ Hrel).
  destruct Hrel as [|row0 row0' g g' Hrow Hrest]; [done|].
  change (vec_at (row0 :: g) 0) with (Ok row0).
  change (vec_at (row0' :: g') 0) with (Ok row0').
  cbn [mbind outcome_bind]. rewrite (Forall2_length _ _ _ Hrow).
  destruct (_ || _); [done|].
  apply search_loop_obstacles. by constructor.
Qed.

Lemma aStar_same_obstacles_witness :
  @aStar fifo_pq [[0; 0; 0]; [1; 1; 0]; [0; 0; 0]] 0 0 2 0 =
  @aStar fifo_pq [[2; 7; -4]; [1; 1; 3]; [0; 5; 2]] 0 0 2 0.
Proof.
  apply (@aStar_same_obstacles fifo_pq [[2; 7; -4]; [1; 1; 3]; [0; 5; 2]]
           [[0; 0; 0]; [1; 1; 0]; [0; 0; 0]] 0 0 2 0).
  repeat constructor.
Defined.

(** ** More obstacles, longer paths *)

Lemma route_fewer_obstacles (grid grid' : Grid) (origin c : cell) (p : list cell) :
  Forall2 (Forall2 (λ v w, v = 1 → w = 1)) grid grid' →
  route grid' origin c p → route grid origin c p.
Proof.
  intros Hrel. induction 1 as [|c p d _ IH Hadj Hfree]; [constructor|].
  apply route_step with c; [done|done|].
  unfold free in *. rewrite (related_in_grid _ grid grid' Hrel) in Hfree.
  apply andb_true_iff in Hfree as [-> Hfree]. cbn.
  pose proof (related_at2 _ grid grid' Hrel d.1 d.2) as H.
  destruct (at2 grid _ _) as [v|], (at2 grid' _ _) as [w|]; try done.
  apply negb_true_iff, Z.eqb_neq in Hfree. apply negb_true_iff, Z.eqb_neq.
  intros Hv. by apply Hfree, H.
Qed.

(** X16.  Obstacles never shorten a delivery.  When a grid [grid'] has
    the shape of a well-formed grid [grid] that fits the arithmetic of the
    search, and an obstacle wherever [grid] has one, a path that the search
    finds on [grid'] is matched on [grid] by a path of at most as many
    cells, between the same origin and target. *)
Theorem aStar_more_obstacles `{PriorityQueue} (grid grid' : Grid)
    (origin target : cell) (p' : list cell) :
  wf_grid grid = true → grid_fits grid = true → in_grid grid origin = true →
  Forall2 (Forall2 (λ v w, v = 1 → w = 1)) grid grid' →
  aStar grid' origin.1 origin.2 target.1 target.2 = Ok p' → p' ≠ [] →
  ∃ p, aStar grid origin.1 origin.2 target.1 target.2 = Ok p ∧ p ≠ [] ∧
       (length p ≤ length p')%nat.
Proof.
  intros Hwf Hfits Hin Hrel Hp' Hne.
  pose proof (related_wf _ grid grid' Hrel Hwf) as Hwf'.
  assert (Hin' : in_grid grid' origin = true)
    by (by rewrite (related_in_grid _ grid grid' Hrel)).
  destruct (aStar_returns grid' Hwf' origin target Hin') as (q & Hq & Hr).
  rewrite Hp' in Hq. injection Hq as <-. destruct Hr as [->|Hr]; [done|].
  apply (route_fewer_obstacles grid grid') in Hr; [|done].
  destruct (aStar_least grid Hwf origin target p' Hfits Hin Hr)
    as (p & Hp & Hroute & Hmin).
  exists p. split; [done|]. split.
  - intros ->. inversion Hroute as [|? p0 ? ? ? ? E]. by destruct p0.
  - specialize (Hmin p' Hr). unfold steps in Hmin. lia.
Qed.

Lemma aStar_more_obstacles_witness :
  ∃ p, @aStar fifo_pq [[0; 0; 0]; [0; 0; 0]; [0; 0; 0]] 0 0 2 0 = Ok p ∧ p ≠ [] ∧
       (length p ≤ length [(0, 0); (0, 1); (0, 2); (1, 2); (2, 2); (2, 1); (2, 0)])%nat.
Proof.
  apply (@aStar_more_obstacles fifo_pq [[0; 0; 0]; [0; 0; 0]; [0; 0; 0]]
           [[0; 0; 0]; [1; 1; 0]; [0; 0; 0]] (0, 0) (2, 0)
           [(0, 0); (0, 1); (0, 2); (1, 2); (2, 2); (2, 1); (2, 0)]).
  - reflexivity.
  - reflexivity.
  - reflexivity.
  - repeat constructor; discriminate.
  - vm_compute. reflexivity.
  - discriminate.
Defined.

(** ** The order of ties *)

(** X17.  The order in which [std::priority_queue] returns nodes of
    equal total cost is not fixed by the language.  On a well-formed grid
    that fits the arithmetic of the search and for an origin in bounds, two
    frontiers that differ in that order give both the empty path or both a
    path, and the two paths have the same number of cells; the cells
    themselves can differ. *)
Theorem aStar_tie_order (PQ1 PQ2 : PriorityQueue) (grid : Grid)
    (origin target : cell) :
  wf_grid grid = true → grid_fits grid = true → in_grid grid origin = true →
  ∃ p q,
    @aStar PQ1 grid origin.1 origin.2 target.1 target.2 = Ok p ∧
    @aStar PQ2 grid origin.1 origin.2 target.1 target.2 = Ok q ∧
    length p = length q.
Proof.
  intros Hwf Hfits Hin.
  destruct (@aStar_returns PQ1 grid Hwf origin target Hin) as (p & Hp & Hpr).
  destruct (@aStar_returns PQ2 grid Hwf origin target Hin) as (q & Hq & Hqr).
  exists p, q. split; [done|]. split; [done|].
  assert (Hmin : ∀ (PQ : PriorityQueue) r s,
            route grid origin target r →
            @aStar PQ grid origin.1 origin.2 target.1 target.2 = Ok s →
            s ≠ [] ∧ steps s ≤ steps r).
  { intros PQ r s Hr Hs.
    destruct (@aStar_least PQ grid Hwf origin target r Hfits Hin Hr)
      as (s' & Hs' & Hroute & Hleast).
    rewrite Hs in Hs'. injection Hs' as <-. split; [|by apply Hleast].
    intros ->. inversion Hroute as [|? p0 ? ? ? ? E]. by destruct p0. }
  destruct Hpr as [->|Hpr], Hqr as [->|Hqr].
  - done.
  - by destruct (Hmin PQ1 q [] Hqr Hp).
  - by destruct (Hmin PQ2 p [] Hpr Hq).
  - destruct (Hmin PQ1 q p Hqr Hp) as [_ H1].
    destruct (Hmin PQ2 p q Hpr Hq) as [_ H2].
    unfold steps in *. lia.
Qed.

Lemma aStar_tie_order_witness :
  ∃ p q,
    @aStar fifo_pq wall_grid 0 0 4 4 = Ok p ∧
    @aStar lifo_pq wall_grid 0 0 4 4 = Ok q ∧
    length p = length q.
Proof.
  apply (aStar_tie_order fifo_pq lifo_pq wall_grid (0, 0) (4, 4)).
  - reflexivity.
  - reflexivity.
  - reflexivity.
Defined.

(** ** The report and the order of the destinations *)

Lemma tier_of_tier (k j : Z) (ds : list Destination) :
  tier_of k (tier_of j ds) = if decide (k = j) then tier_of j ds else [].
Proof.
  induction ds as [|[d p] ds IH]; [by case_decide|].
  rewrite (tier_of_cons j). destruct (decide (p = j)) as [->|Hp]; [|done].
  rewrite (tier_of_cons k), IH. by destruct (decide (j = k)), (decide (k = j)).
Qed.

Lemma tier_of_app (k : Z) (l1 l2 : list Destination) :
  tier_of k (l1 ++ l2) = tier_of k l1 ++ tier_of k l2.
Proof. unfold tier_of. by rewrite filter_app. Qed.

Lemma tier_of_selected (k : Z) (ds : list Destination) :
  1 ≤ k ≤ 3 → tier_of k (selected ds) = tier_of k ds.
Proof.
  intros Hk. unfold selected. rewrite !tier_of_app, !tier_of_tier.
  assert (k = 1 ∨ k = 2 ∨ k = 3) as [-> | [-> | ->]] by lia;
    repeat case_decide; try lia; by rewrite ?app_nil_r.
Qed.

Lemma main_buckets `{PriorityQueue} (grid : Grid) (start : cell)
    (ds : list Destination) :
  priorities_in_range ds →
  main grid start ds =
  (listing ← sorted_addresses tiers
     [[]; (tier_of 1 ds).*1; (tier_of 2 ds).*1; (tier_of 3 ds).*1];
   r ← run_tiers grid tiers
     [[]; (tier_of 1 ds).*1; (tier_of 2 ds).*1; (tier_of 3 ds).*1] start;
   Ok (listing, r.1)).
Proof.
  intros Hr. unfold main, make_buckets.
  change (replicate 4 []) with [@nil cell; []; []; []].
  rewrite (fill_buckets_spec ds [] [] [] [] Hr). cbn [app mbind outcome_bind].
  reflexivity.
Qed.

(** X18.  The report depends on the destinations only through the three
    tiers: two destination lists with priorities from 0 to 3 that have the
    same destinations of priority 1, of priority 2 and of priority 3, each
    in the same order, give the same listing and the same legs, on every
    grid and from every start point.  How the tiers are interleaved in the
    file, and the destinations of priority 0, change nothing. *)
Theorem report_depends_on_tiers `{PriorityQueue} (grid : Grid) (start : cell)
    (ds ds' : list Destination) :
  priorities_in_range ds → priorities_in_range ds' →
  selected ds = selected ds' →
  main grid start ds = main grid start ds'.
Proof.
  intros Hr Hr' Hsel.
  rewrite (main_buckets grid start ds Hr), (main_buckets grid start ds' Hr').
  rewrite <- (tier_of_selected 1 ds), <- (tier_of_selected 2 ds),
    <- (tier_of_selected 3 ds) by lia.
  rewrite Hsel.
  by rewrite !tier_of_selected by lia.
Qed.

Lemma report_depends_on_tiers_witness :
  @main fifo_pq wall_grid (0, 0) sample_destinations =
  @main fifo_pq wall_grid (0, 0)
    [((0, 1), 1); ((2, 2), 1); ((4, 4), 2); ((0, 4), 3)].
Proof.
  apply (@report_depends_on_tiers fifo_pq wall_grid (0, 0) sample_destinations
           [((0, 1), 1); ((2, 2), 1); ((4, 4), 2); ((0, 4), 3)]).
  - unfold priorities_in_range, sample_destinations. repeat constructor; cbn; lia.
  - unfold priorities_in_range. repeat constructor; cbn; lia.
  - reflexivity.
Defined.

(** ** A grid without obstacles *)

Section OpenGrid.
Variable grid : Grid.
Hypothesis Hwf : wf_grid grid = true.
Hypothesis Hopen : Forall (Forall (λ v, v ≠ 1)) grid.

Lemma open_free (c : cell) : in_grid grid c = true → free grid c = true.
Proof.
  intros Hin. apply (free_spec grid Hwf).
  destruct (grid_at2_defined grid Hwf c.1 c.2 Hin) as [v Hv].
  exists v. split; [done|].
  apply at2_Ok in Hv as (row & _ & Hrow & _ & Hv).
  apply list_elem_of_lookup_2 in Hrow, Hv.
  eapply (proj1 (Forall_forall _ _) Hopen) in Hrow.
  by eapply (proj1 (Forall_forall _ _) Hrow) in Hv.
Qed.

(** Between two cells of the grid a route of as many steps as their
    Manhattan distance: towards the target row first, then along it. *)
Lemma open_route (a : cell) (n : nat) :
  in_grid grid a = true →
  ∀ b, in_grid grid b = true → manhattan a b = Z.of_nat n →
       ∃ p, route grid a b p ∧ steps p = Z.of_nat n.
Proof.
  intros Ha. induction n as [|n IH]; intros [bx by'] Hb Hn.
  - assert ((bx, by') = a) as ->.
    { destruct a. unfold manhattan in Hn. cbn in Hn. f_equal; lia. }
    exists [a]. split; [constructor|done].
  - set (d := if decide (bx = a.1)
              then (bx, by' - Z.sgn (by' - a.2))
              else (bx - Z.sgn (bx - a.1), by')).
    assert (Hd : in_grid grid d = true ∧ manhattan a d = Z.of_nat n ∧
                 adjacent d (bx, by') = true).
    { unfold in_grid in *. apply isValid_true in Ha, Hb. cbn in Hb.
      rewrite isValid_true. unfold manhattan, adjacent in *. cbn in Hn.
      rewrite Z.eqb_eq. subst d. case_decide; cbn; lia. }
    destruct Hd as (Hd & Hnd & Hadj).
    destruct (IH d Hd Hnd) as (p & Hp & Hsteps).
    exists (p ++ [(bx, by')]). split.
    + apply route_step with d; [done|done|]. by apply open_free.
    + rewrite steps_snoc. lia.
Qed.

End OpenGrid.

(** X19.  On a well-formed grid without obstacles that fits the
    arithmetic of the search, [aStar] between two cells of the grid returns
    a path of exactly as many steps as the Manhattan distance between
    them. *)
Theorem aStar_open_grid `{PriorityQueue} (grid : Grid) (origin target : cell) :
  wf_grid grid = true → grid_fits grid = true →
  Forall (Forall (λ v, v ≠ 1)) grid →
  in_grid grid origin = true → in_grid grid target = true →
  ∃ p, aStar grid origin.1 origin.2 target.1 target.2 = Ok p ∧
       steps p = manhattan origin target.
Proof.
  intros Hwf Hfits Hopen Ho Ht.
  assert (Hn : manhattan origin target =
               Z.of_nat (Z.to_nat (manhattan origin target)))
    by (unfold manhattan; lia).
  destruct (open_route grid Hwf Hopen origin _ Ho target Ht Hn) as (q & Hq & Hsteps).
  destruct (aStar_least grid Hwf origin target q Hfits Ho Hq)
    as (p & Hp & Hroute & Hmin).
  exists p. split; [done|].
  pose proof (route_manhattan grid origin target p Hroute).
  specialize (Hmin q Hq). lia.
Qed.

Lemma aStar_open_grid_witness :
  ∃ p, @aStar lifo_pq [[0; 0; 2]; [0; 0; 0]; [3; 0; 0]] 2 0 0 2 = Ok p ∧
       steps p = manhattan (2, 0) (0, 2).
Proof.
  apply (@aStar_open_grid lifo_pq [[0; 0; 2]; [0; 0; 0]; [3; 0; 0]] (2, 0) (0, 2)).
  - reflexivity.
  - reflexivity.
  - repeat constructor; discriminate.
  - reflexivity.
  - reflexivity.
Defined.
